(** * EnemyGhost: the ghost agent of src/components/EnemyGhost.jsx

    A shallow embedding of the [GhostFollow] component: its hook state
    becomes a record, every callback of the component (the intersection
    handler, the [raining] effect, the timeout callback, the frame
    callback) becomes a function from a state to a new state and the list
    of calls it makes on its collaborators.

    Numbers.  JavaScript numbers are modelled by their ideal values: hit
    points and damage are integers ([Z]), positions, durations and clock
    readings are real numbers ([R]), the health fraction is a rational
    ([Q]).  Rounding is not modelled.

    Scheduling.  [curr], [dead] and [vanishing] are constants of one
    render, and a callback holds the values of the render that created
    it.  Events are processed one at a time and the component has
    re-rendered between two events, so the frame callback, the [raining]
    effect and [play] read the values the previous event left.  The
    intersections that one step of the physics world delivers are one
    event: they all reach the handler of the same render, which therefore
    tests in [startVanish] the value of [vanishing] from before the first
    of them.  That value is the argument [captured] of [startVanish],
    [handleHit] and [onIntersectionEnter].  The refs and the updater's
    [prev] are always current. *)

From Stdlib Require Import ZArith QArith Reals Lra Lia List String Bool.
Import ListNotations.

Close Scope Q_scope.
Close Scope R_scope.

(** ** three.js vectors and Math.hypot *)

Module Vector3.

Record V3 : Type := mk { x : R; y : R; z : R }.

(** [Vector3.length]: the Euclidean norm. *)
Definition length (v : V3) : R :=
  sqrt (x v * x v + y v * y v + z v * z v)%R.

Definition multiplyScalar (v : V3) (k : R) : V3 :=
  mk (x v * k)%R (y v * k)%R (z v * k)%R.

(** [divideScalar(s)] is [multiplyScalar(1 / s)] in three.js. *)
Definition divideScalar (v : V3) (k : R) : V3 :=
  multiplyScalar v (1 / k)%R.

(** [normalize()] is [divideScalar(length() || 1)]: a vector of length 0
    is divided by 1 and stays the zero vector. *)
Definition normalize (v : V3) : V3 :=
  divideScalar v (if Req_dec_T (length v) 0%R then 1%R else length v).

(** Distance between two points, used to measure a proposed step. *)
Definition distanceTo (a b : V3) : R :=
  length (mk (x b - x a)%R (y b - y a)%R (z b - z a)%R).

End Vector3.

Import Vector3.

(** [Math.hypot(a, b)]. *)
Definition hypot (a b : R) : R := sqrt (a * a + b * b)%R.

(** ** Constants of the component *)

Definition WALK_SPEED : R := 4%R.
Definition ATTACK_RANGE : R := 1%R.
Definition ATTACK_COOLDOWN : R := 1000%R.
Definition MAX_HP : Z := 10%Z.
(** The literals of the source: the delay handed to [setTimeout], the
    length of the retreat step, the fade-in of a clip, the default damage. *)
Definition VANISH_DURATION : R := 2200%R.
Definition RETREAT_STEP : R := (3 / 10)%R.
Definition FADE_IN : R := (2 / 10)%R.
Definition DEFAULT_DAMAGE : Z := 10%Z.

Definition IDLE : string := "Idle"%string.
Definition WALK : string := "Armature|Action_Walk"%string.
Definition ATTACK : string := "Armature|Action_Atack"%string.
Definition MAGIC : string := "magic"%string.

(** ** Data model *)

(** The rapier rigid body behind [rigid.current]. *)
Record Body : Type := mkBody {
  translation : V3;
  enabled : bool;
  nextKinematic : option V3
}.

Definition setEnabled (b : bool) (r : Body) : Body :=
  mkBody (translation r) b (nextKinematic r).

Definition setNextKinematicTranslation (v : V3) (r : Body) : Body :=
  mkBody (translation r) (enabled r) (Some v).

Definition moveTo (g : V3) (r : Body) : Body :=
  mkBody g (enabled r) (nextKinematic r).

(** The hook state and the refs of one [GhostFollow] instance, and the
    deadlines of the timeouts it has scheduled and that have not fired. *)
Record Ghost : Type := mkGhost {
  curr : string;
  hp : Z;
  dead : bool;
  vanishing : bool;
  vanishPosRef : V3;
  lastAttack : R;
  rigid : option Body;
  timers : list R
}.

Definition setCurr (n : string) (s : Ghost) : Ghost :=
  mkGhost n (hp s) (dead s) (vanishing s) (vanishPosRef s) (lastAttack s)
          (rigid s) (timers s).

Definition setHp (h : Z) (s : Ghost) : Ghost :=
  mkGhost (curr s) h (dead s) (vanishing s) (vanishPosRef s) (lastAttack s)
          (rigid s) (timers s).

Definition setDead (b : bool) (s : Ghost) : Ghost :=
  mkGhost (curr s) (hp s) b (vanishing s) (vanishPosRef s) (lastAttack s)
          (rigid s) (timers s).

Definition setVanishing (b : bool) (s : Ghost) : Ghost :=
  mkGhost (curr s) (hp s) (dead s) b (vanishPosRef s) (lastAttack s)
          (rigid s) (timers s).

Definition setVanishPos (v : V3) (s : Ghost) : Ghost :=
  mkGhost (curr s) (hp s) (dead s) (vanishing s) v (lastAttack s)
          (rigid s) (timers s).

Definition setLastAttack (t : R) (s : Ghost) : Ghost :=
  mkGhost (curr s) (hp s) (dead s) (vanishing s) (vanishPosRef s) t
          (rigid s) (timers s).

Definition setRigid (r : option Body) (s : Ghost) : Ghost :=
  mkGhost (curr s) (hp s) (dead s) (vanishing s) (vanishPosRef s)
          (lastAttack s) r (timers s).

Definition setTimers (ts : list R) (s : Ghost) : Ghost :=
  mkGhost (curr s) (hp s) (dead s) (vanishing s) (vanishPosRef s)
          (lastAttack s) (rigid s) ts.

(** The calls the component makes on its collaborators: the animation
    actions, the model group, the rigid body, the timer, the quest context
    and its owner. *)
Inductive Effect : Type :=
| ActionStop (name : string)
| ActionReset (name : string)
| ActionFadeIn (name : string) (seconds : R)
| ActionPlay (name : string)
| LookAt (px py pz : R)
| SetEnabled (b : bool)
| SetNextKinematicTranslation (v : V3)
| SetTimeout (ms : R)
| AddKill
| OnDead.

Definition isActionPlay (e : Effect) : bool :=
  match e with ActionPlay _ => true | _ => false end.
Definition isSetEnabled (e : Effect) : bool :=
  match e with SetEnabled _ => true | _ => false end.
Definition isMotion (e : Effect) : bool :=
  match e with SetNextKinematicTranslation _ => true | _ => false end.
Definition isSetTimeout (e : Effect) : bool :=
  match e with SetTimeout _ => true | _ => false end.
Definition isAddKill (e : Effect) : bool :=
  match e with AddKill => true | _ => false end.
Definition isAnimation (e : Effect) : bool :=
  match e with
  | ActionStop _ | ActionReset _ | ActionFadeIn _ _ | ActionPlay _ => true
  | _ => false
  end.

(** Number of effects of a trace that satisfy [f]. *)
Definition count (f : Effect -> bool) (tr : list Effect) : nat :=
  List.length (filter f tr).

(** [userData] of the other body of an intersection. *)
Record UserData : Type := mkUserData {
  type : option string;
  damage : option Z
}.

(** What the component receives from outside: the clips for which
    [actions[name]] is defined, in the order of [Object.values], and whether
    the [onDead] prop was given. *)
Record Props : Type := mkProps {
  actions : list string;
  onDead : bool;
  spawnPos : V3
}.

(** ** The callbacks *)

Section Component.

Variable props : Props.

Definition hasAction (name : string) : bool :=
  existsb (String.eqb name) (actions props).

(** [play], lines 32-37. *)
Definition play (name : string) (s : Ghost) : Ghost * list Effect :=
  if String.eqb (curr s) name || negb (hasAction name) then (s, [])
  else (setCurr name s,
        map ActionStop (actions props)
          ++ [ActionReset name; ActionFadeIn name FADE_IN; ActionPlay name]).

(** [startVanish], lines 49-64, called at clock reading [now] from a
    render in which [vanishing] was [captured]: line 50 tests that constant,
    not the state that [setVanishing] has updated since. *)
Definition startVanish (captured : bool) (now : R) (s : Ghost)
  : Ghost * list Effect :=
  if captured then (s, [])
  else
    let s1 := setVanishing true s in
    let '(s2, e2) :=
      match rigid s1 with
      | Some r =>
          (setRigid (Some (setEnabled false r))
                    (setVanishPos (translation r) s1),
           [SetEnabled false])
      | None => (s1, [])
      end in
    (setTimers (timers s2 ++ [(now + VANISH_DURATION)%R]) s2,
     e2 ++ [SetTimeout VANISH_DURATION]).

(** The callback handed to [setTimeout], lines 60-63. *)
Definition vanishTimeout (s : Ghost) : Ghost * list Effect :=
  (setDead true s, if onDead props then [OnDead] else []).

(** [handleHit], lines 66-75; an absent argument is the default 10.  The
    updater runs on the current hit points. *)
Definition handleHit (captured : bool) (now : R) (dmg : option Z) (s : Ghost)
  : Ghost * list Effect :=
  let d := match dmg with Some d => d | None => DEFAULT_DAMAGE end in
  let next := (hp s - d)%Z in
  let '(s1, e1) :=
    if (next <=? 0)%Z
    then let '(s', e') := startVanish captured now s in (s', AddKill :: e')
    else (s, []) in
  (setHp next s1, e1).

(** [onIntersectionEnter], lines 137-142. *)
Definition onIntersectionEnter
  (captured : bool) (now : R) (other : option UserData) (s : Ghost)
  : Ghost * list Effect :=
  match other with
  | Some ud =>
      match type ud with
      | Some ty =>
          if String.eqb ty MAGIC
          then handleHit captured now
                 (Some match damage ud with
                       | Some d => d
                       | None => 10%Z
                       end) s
          else (s, [])
      | None => (s, [])
      end
  | None => (s, [])
  end.

(** The intersections of one physics step, in order, handled by the
    handler of one render. *)
Fixpoint drain (captured : bool) (now : R) (others : list (option UserData))
  (s : Ghost) : Ghost * list Effect :=
  match others with
  | [] => (s, [])
  | other :: rest =>
      let '(s1, e1) := onIntersectionEnter captured now other s in
      let '(s2, e2) := drain captured now rest s1 in
      (s2, e1 ++ e2)
  end.

(** The effect on [raining], lines 116-120; it belongs to the render that
    the change of [raining] caused. *)
Definition rainingEffect (now : R) (raining : bool) (s : Ghost)
  : Ghost * list Effect :=
  if negb raining then startVanish (vanishing s) now s else (s, []).

(** The frame callback, lines 80-113.  [playerRef] is the translation of
    [playerRef.current] when that ref is set, [dt] the frame's duration,
    [now] the reading of [performance.now()].  The group that carries the
    [model] ref is rendered only while [vanishing] is false (line 144), so
    [model.current?.lookAt] does something only then. *)
Definition useFrame (playerRef : option V3) (dt now : R) (s : Ghost)
  : Ghost * list Effect :=
  if dead s then (s, [])
  else
    match playerRef, rigid s with
    | Some p, Some r =>
        let g := translation r in
        let dist := hypot (x p - x g) (z p - z g) in
        let e0 := if vanishing s then [] else [LookAt (x p) (y g) (z p)] in
        if Rgt_dec dist ATTACK_RANGE then
          let dir := normalize (mk (x p - x g) 0 (z p - z g)) in
          let next := mk (x g + x dir * WALK_SPEED * dt) (y g)
                         (z g + z dir * WALK_SPEED * dt) in
          let s1 := setRigid (Some (setNextKinematicTranslation next r)) s in
          let '(s2, e2) := play WALK s1 in
          (s2, e0 ++ SetNextKinematicTranslation next :: e2)
        else
          let '(s1, e1) := play ATTACK s in
          if Rgt_dec (now - lastAttack s1) ATTACK_COOLDOWN then
            let backDir := normalize (mk (x g - x p) 0 (z g - z p)) in
            let retreat := mk (x g + x backDir * RETREAT_STEP) (y g)
                              (z g + z backDir * RETREAT_STEP) in
            (setRigid (Some (setNextKinematicTranslation retreat r))
                      (setLastAttack now s1),
             e0 ++ e1 ++ [SetNextKinematicTranslation retreat])
          else (s1, e0 ++ e1)
    | _, _ => (s, [])
    end.

(** The health bar of the render output, lines 123-155: nothing is
    rendered once [dead], and the bar is rendered only while [vanishing]
    is false; its x scale is [hp / MAX_HP]. *)
Definition healthFraction (s : Ghost) : Q := (inject_Z (hp s) / inject_Z MAX_HP)%Q.

Definition healthBar (s : Ghost) : option Q :=
  if dead s then None
  else if vanishing s then None
  else Some (healthFraction s).

(** ** The component as a transition system *)

(** What can happen to a mounted ghost: the intersections with other
    bodies that one step of the physics world delivers, a run of the
    [raining] effect, the oldest pending timeout coming due, a frame, and
    a step of the physics world that moves the body. *)
Inductive Event : Type :=
| IntersectionEnter (others : list (option UserData))
| Raining (raining : bool)
| TimerFires
| Frame (playerRef : option V3) (dt : R)
| PhysicsStep (g : V3).

(** One event processed at clock reading [now], by the callbacks of the
    render of state [s].  A timeout runs its callback only when its
    deadline has been reached. *)
Definition step (now : R) (ev : Event) (s : Ghost) : Ghost * list Effect :=
  match ev with
  | IntersectionEnter others => drain (vanishing s) now others s
  | Raining raining => rainingEffect now raining s
  | TimerFires =>
      match timers s with
      | d :: rest =>
          if Rle_dec d now then vanishTimeout (setTimers rest s) else (s, [])
      | [] => (s, [])
      end
  | Frame playerRef dt => useFrame playerRef dt now s
  | PhysicsStep g =>
      (match rigid s with
       | Some r => setRigid (Some (moveTo g r)) s
       | None => s
       end, [])
  end.

(** A sequence of time-stamped events, with the trace of all effects. *)
Fixpoint run (evs : list (R * Event)) (s : Ghost) : Ghost * list Effect :=
  match evs with
  | [] => (s, [])
  | (now, ev) :: rest =>
      let '(s1, e1) := step now ev s in
      let '(s2, e2) := run rest s1 in
      (s2, e1 ++ e2)
  end.

(** The state after mounting, lines 24-29 and 40-47: [r] is what
    [rigid.current] holds, the body placed at the spawn point or nothing. *)
Definition mount (r : option Body) : Ghost :=
  mkGhost IDLE MAX_HP false false (spawnPos props) 0%R r [].

Definition spawnBody : Body := mkBody (spawnPos props) true None.

(** A "magic" body that carries damage [d]. *)
Definition magic (d : Z) : option UserData :=
  Some (mkUserData (Some MAGIC) (Some d)).

(** Hits of the damages [ds], one per physics step. *)
Definition hits (now : R) (ds : list Z) : list (R * Event) :=
  map (fun d => (now, IntersectionEnter [magic d])) ds.

(** Hits of the damages [ds], all delivered by one physics step. *)
Definition volley (now : R) (ds : list Z) : list (R * Event) :=
  [(now, IntersectionEnter (map magic ds))].

End Component.

(** The lifecycle state of the specification, read off the two flags. *)
Inductive Lifecycle : Type := Alive | Vanishing | Removed.

Definition lifecycleState (s : Ghost) : Lifecycle :=
  if dead s then Removed else if vanishing s then Vanishing else Alive.

Definition rank (l : Lifecycle) : nat :=
  match l with Alive => 0 | Vanishing => 1 | Removed => 2 end.

(** One step of the lifecycle: stay, or move to the next state. *)
Inductive forward : Lifecycle -> Lifecycle -> Prop :=
| forward_stay : forall l, forward l l
| forward_vanish : forward Alive Vanishing
| forward_remove : forward Vanishing Removed.

(** The damage an intersection carries, [userData?.damage ?? 10]. *)
Definition damageOf (ud : UserData) : Z :=
  match damage ud with Some d => d | None => 10%Z end.

(** Damage is a positive amount in every intersection of the sequence. *)
Definition positiveDamage (ev : Event) : bool :=
  match ev with
  | IntersectionEnter others =>
      forallb (fun other => match other with
                            | Some ud => (0 <? damageOf ud)%Z
                            | None => true
                            end) others
  | _ => true
  end.

Definition positiveDamages (evs : list (R * Event)) : bool :=
  forallb (fun te => positiveDamage (snd te)) evs.

(** The value of [vanishing] that a render captured may be behind the
    state, never ahead of it. *)
Definition stale (captured : bool) (s : Ghost) : Prop :=
  captured = true -> vanishing s = true.

(** A timeout is pending, and the ghost is dead, only after [startVanish]. *)
Definition vanishFirst (s : Ghost) : Prop :=
  (dead s = true -> vanishing s = true) /\
  (timers s <> [] -> vanishing s = true).

(** While the health bar is shown the hit points are within (0, MAX_HP]. *)
Definition hpInRange (s : Ghost) : Prop :=
  vanishing s = false -> (0 < hp s <= MAX_HP)%Z.

(** What every event guarantees about the lifecycle, from state [s] to
    state [s']: the two flags are never reset and the lifecycle moves
    forward by at most one state. *)
Definition stepOk (s s' : Ghost) : Prop :=
  implb (dead s) (dead s') = true /\
  implb (vanishing s) (vanishing s') = true /\
  (vanishFirst s ->
   vanishFirst s' /\ forward (lifecycleState s) (lifecycleState s')).

Definition isOnDead (e : Effect) : bool :=
  match e with OnDead => true | _ => false end.

(** The calls a frame may make: on the animation actions, on the model
    group and on the body's kinematic target. *)
Definition isFrameEffect (e : Effect) : bool :=
  match e with
  | LookAt _ _ _ | SetNextKinematicTranslation _ => true
  | _ => isAnimation e
  end.

(** Among hits of damages [ds] on a ghost with [h] hit points, the number
    of those that leave the hit points at or below zero. *)
Fixpoint lethalHits (h : Z) (ds : list Z) : nat :=
  match ds with
  | [] => 0
  | d :: rest =>
      (if (h - d <=? 0)%Z then 1 else 0) + lethalHits (h - d)%Z rest
  end.

(** The damage an intersection inflicts: that of a body whose
    [userData.type] is "magic" (lines 138-140), none otherwise. *)
Definition hitDamage (other : option UserData) : option Z :=
  match other with
  | Some ud =>
      match type ud with
      | Some ty => if String.eqb ty MAGIC then Some (damageOf ud) else None
      | None => None
      end
  | None => None
  end.

(** The damages of the hits among some intersections, in order. *)
Fixpoint hitDamages (others : list (option UserData)) : list Z :=
  match others with
  | [] => []
  | other :: rest =>
      match hitDamage other with
      | Some d => d :: hitDamages rest
      | None => hitDamages rest
      end
  end.

(** The damages of all hits of a sequence of events, in order. *)
Fixpoint damagesOf (evs : list (R * Event)) : list Z :=
  match evs with
  | [] => []
  | (_, IntersectionEnter others) :: rest => hitDamages others ++ damagesOf rest
  | _ :: rest => damagesOf rest
  end.

Definition totalDamage (evs : list (R * Event)) : Z :=
  fold_right Z.add 0%Z (damagesOf evs).

(** Among the events [evs] met by a ghost with [h] hit points, the number
    of hits that leave the hit points at or below zero. *)
Definition lethalEvents (h : Z) (evs : list (R * Event)) : nat :=
  lethalHits h (damagesOf evs).

(** The clips started in a trace, in order. *)
Fixpoint plays (tr : list Effect) : list string :=
  match tr with
  | [] => []
  | ActionPlay n :: rest => n :: plays rest
  | _ :: rest => plays rest
  end.

(** Starting from clip [c], no clip of [l] is started while it is already
    the current one. *)
Fixpoint noRestart (c : string) (l : list string) : bool :=
  match l with
  | [] => true
  | n :: rest => negb (String.eqb c n) && noRestart n rest
  end.

(** The clip that is current after starting the clips [l] from [c]. *)
Fixpoint lastClip (c : string) (l : list string) : string :=
  match l with
  | [] => c
  | n :: rest => lastClip n rest
  end.

(** The red bar of the health display, lines 152-155: a plane of width 1
    scaled in x by [hp / MAX_HP] about its centre and centred at
    [-0.5 * (1 - hp / MAX_HP)].  The black bar behind it, lines 148-151, is
    a plane of width 1 centred at 0: it spans [-1/2, 1/2]. *)
Definition barPositionX (s : Ghost) : Q :=
  (- (1 # 2) * (1 - healthFraction s))%Q.

Definition barLeft (s : Ghost) : Q :=
  (barPositionX s - healthFraction s * (1 # 2))%Q.

Definition barRight (s : Ghost) : Q :=
  (barPositionX s + healthFraction s * (1 # 2))%Q.

(** No run of the [raining] effect in the sequence sees the rain stopped. *)
Definition staysRaining (evs : list (R * Event)) : bool :=
  forallb (fun te => match snd te with
                     | Raining raining => raining
                     | _ => true
                     end) evs.

(** [setEnabled] called to enable the body. *)
Definition isEnable (e : Effect) : bool :=
  match e with SetEnabled b => b | _ => false end.


(** A ghost used in the examples: it spawns at the origin, its model has the
    walk and the attack clip, and it has an owner to notify. *)
Definition origin : V3 := mk 0 0 0.
Definition sampleProps : Props := mkProps [WALK; ATTACK] true origin.
Definition sampleGhost : Ghost :=
  mount sampleProps (Some (spawnBody sampleProps)).

(** * Properties *)

Section Properties.

Variable props : Props.

(** ** Traces *)

Lemma count_app (f : Effect -> bool) (a b : list Effect) :
  count f (a ++ b) = count f a + count f b.
Proof.
  unfold count. rewrite filter_app, length_app. reflexivity.
Qed.

Lemma run_app (evs1 evs2 : list (R * Event)) (s : Ghost) :
  run props (evs1 ++ evs2) s =
  (fst (run props evs2 (fst (run props evs1 s))),
   snd (run props evs1 s) ++ snd (run props evs2 (fst (run props evs1 s)))).
Proof.
  revert s. induction evs1 as [|[now ev] evs1 IH]; intro s; simpl.
  - destruct (run props evs2 s); reflexivity.
  - destruct (step props now ev s) as [s1 e1].
    rewrite IH. destruct (run props evs1 s1) as [s2 e2]. simpl.
    rewrite app_assoc. reflexivity.
Qed.

Lemma run_cons (now : R) (ev : Event) (evs : list (R * Event)) (s : Ghost) :
  run props ((now, ev) :: evs) s =
  (fst (run props evs (fst (step props now ev s))),
   snd (step props now ev s) ++ snd (run props evs (fst (step props now ev s)))).
Proof.
  simpl. destruct (step props now ev s) as [s1 e1]. simpl.
  destruct (run props evs s1); reflexivity.
Qed.

(** ** The animation selector *)

Lemma play_effects_animation (name : string) (s : Ghost) :
  forallb isAnimation (snd (play props name s)) = true.
Proof.
  unfold play.
  destruct (String.eqb (curr s) name || negb (hasAction props name)); simpl.
  - reflexivity.
  - rewrite forallb_app. simpl. rewrite andb_true_r.
    induction (actions props); simpl; auto.
Qed.

Lemma play_frame (name : string) (s : Ghost) :
  let s' := fst (play props name s) in
  hp s' = hp s /\ dead s' = dead s /\ vanishing s' = vanishing s /\
  vanishPosRef s' = vanishPosRef s /\ lastAttack s' = lastAttack s /\
  rigid s' = rigid s /\ timers s' = timers s.
Proof.
  unfold play.
  destruct (String.eqb (curr s) name || negb (hasAction props name)); simpl;
    repeat split; reflexivity.
Qed.

Lemma count_animation_none (f : Effect -> bool) (tr : list Effect) :
  (forall e, isAnimation e = true -> f e = false) ->
  forallb isAnimation tr = true -> count f tr = 0.
Proof.
  intros Hf. unfold count. induction tr as [|e tr IH]; simpl; intro H.
  - reflexivity.
  - apply andb_true_iff in H. destruct H as [He Htr].
    rewrite (Hf e He). auto.
Qed.

(** ** The vanish transition *)

Lemma startVanish_skip (now : R) (s : Ghost) :
  startVanish true now s = (s, []).
Proof. reflexivity. Qed.

Lemma startVanish_guard (now : R) (s : Ghost) :
  vanishing s = true -> startVanish (vanishing s) now s = (s, []).
Proof. intro H. rewrite H. reflexivity. Qed.

(** The state and the calls of a [startVanish] that passes the guard. *)
Lemma startVanish_enter (now : R) (s : Ghost) :
  startVanish false now s =
  match rigid s with
  | Some r =>
      (setTimers (timers s ++ [(now + VANISH_DURATION)%R])
         (setRigid (Some (setEnabled false r))
            (setVanishPos (translation r) (setVanishing true s))),
       [SetEnabled false; SetTimeout VANISH_DURATION])
  | None =>
      (setTimers (timers s ++ [(now + VANISH_DURATION)%R])
         (setVanishing true s),
       [SetTimeout VANISH_DURATION])
  end.
Proof. unfold startVanish. simpl. destruct (rigid s); reflexivity. Qed.

Lemma startVanish_frame (c : bool) (now : R) (s : Ghost) :
  let s' := fst (startVanish c now s) in
  dead s' = dead s /\ hp s' = hp s /\ curr s' = curr s /\
  lastAttack s' = lastAttack s /\
  implb (vanishing s) (vanishing s') = true /\
  (stale c s -> vanishing s' = true).
Proof.
  destruct c.
  - simpl. repeat split; auto. destruct (vanishing s); reflexivity.
  - rewrite startVanish_enter. destruct (rigid s); simpl;
      repeat split; auto; destruct (vanishing s); reflexivity.
Qed.

Lemma startVanish_vanishFirst (c : bool) (now : R) (s : Ghost) :
  vanishFirst s -> vanishFirst (fst (startVanish c now s)).
Proof.
  intros [Hd Ht]. destruct c; [split; auto|].
  rewrite startVanish_enter. destruct (rigid s); simpl; split; auto.
Qed.

(** What a single intersection does: nothing, a hit that leaves hit
    points, or a hit that leaves none. *)
Lemma handleHit_shape (c : bool) (now : R) (d : Z) (s : Ghost) :
  handleHit c now (Some d) s
  = if (hp s - d <=? 0)%Z
    then (setHp (hp s - d) (fst (startVanish c now s)),
          AddKill :: snd (startVanish c now s))
    else (setHp (hp s - d) s, []).
Proof.
  unfold handleHit. destruct (hp s - d <=? 0)%Z; [|reflexivity].
  destruct (startVanish c now s); reflexivity.
Qed.

Lemma onIntersectionEnter_shape
  (c : bool) (now : R) (other : option UserData) (s : Ghost) :
  onIntersectionEnter c now other s
  = match hitDamage other with
    | Some d => handleHit c now (Some d) s
    | None => (s, [])
    end.
Proof.
  unfold onIntersectionEnter, hitDamage.
  destruct other as [ud|]; [|reflexivity].
  destruct (type ud) as [ty|]; [|reflexivity].
  destruct (String.eqb ty MAGIC); reflexivity.
Qed.

Lemma hit_cases (P : Ghost * list Effect -> Prop)
  (c : bool) (now : R) (other : option UserData) (s : Ghost) :
  P (s, []) ->
  (forall d, hitDamage other = Some d -> (0 < hp s - d)%Z ->
     P (setHp (hp s - d) s, [])) ->
  (forall d, hitDamage other = Some d -> (hp s - d <= 0)%Z ->
     P (setHp (hp s - d) (fst (startVanish c now s)),
        AddKill :: snd (startVanish c now s))) ->
  P (onIntersectionEnter c now other s).
Proof.
  intros Hn Hl Hk. rewrite onIntersectionEnter_shape.
  destruct (hitDamage other) as [d|]; [|exact Hn].
  rewrite handleHit_shape. destruct (hp s - d <=? 0)%Z eqn:L.
  - apply Z.leb_le in L. exact (Hk d eq_refl L).
  - apply Z.leb_gt in L. exact (Hl d eq_refl L).
Qed.

Lemma onIntersectionEnter_stale
  (c : bool) (now : R) (other : option UserData) (s : Ghost) :
  stale c s -> stale c (fst (onIntersectionEnter c now other s)).
Proof.
  intro St. apply hit_cases; auto.
  intros d _ _ C. simpl.
  exact (proj2 (proj2 (proj2 (proj2 (proj2 (startVanish_frame c now s))))) St).
Qed.

Lemma drain_cons
  (c : bool) (now : R) (other : option UserData)
  (others : list (option UserData)) (s : Ghost) :
  drain c now (other :: others) s =
  (fst (drain c now others (fst (onIntersectionEnter c now other s))),
   snd (onIntersectionEnter c now other s)
     ++ snd (drain c now others (fst (onIntersectionEnter c now other s)))).
Proof.
  simpl. destruct (onIntersectionEnter c now other s) as [s1 e1]. simpl.
  destruct (drain c now others s1); reflexivity.
Qed.

(** Induction over the intersections of one physics step, for a property
    of the state reached and of the trace so far. *)
Lemma drain_trace_ind (c : bool) (now : R) (Q : Ghost -> list Effect -> Prop) :
  (forall other s tr,
     stale c s -> Q s tr ->
     Q (fst (onIntersectionEnter c now other s))
       (tr ++ snd (onIntersectionEnter c now other s))) ->
  forall others s tr,
    stale c s -> Q s tr ->
    Q (fst (drain c now others s)) (tr ++ snd (drain c now others s)).
Proof.
  intros Hstep others.
  induction others as [|other others IH]; intros s tr St H.
  - simpl. rewrite app_nil_r. exact H.
  - rewrite drain_cons. cbn [fst snd]. rewrite app_assoc.
    apply IH; [apply onIntersectionEnter_stale, St|]. apply Hstep; assumption.
Qed.

Lemma drain_state_ind (c : bool) (now : R) (P : Ghost -> Prop) :
  (forall other s,
     stale c s -> P s -> P (fst (onIntersectionEnter c now other s))) ->
  forall others s, stale c s -> P s -> P (fst (drain c now others s)).
Proof.
  intros Hstep others s St H.
  exact (drain_trace_ind c now (fun s _ => P s)
           (fun other s _ => Hstep other s) others s [] St H).
Qed.

Lemma stale_now (s : Ghost) : stale (vanishing s) s.
Proof. intro H. exact H. Qed.

(** ** Eliminations *)

Lemma play_same (name : string) (s : Ghost) :
  curr s = name -> play props name s = (s, []).
Proof. intro E. unfold play. rewrite E, String.eqb_refl. reflexivity. Qed.

Lemma play_missing (name : string) (s : Ghost) :
  hasAction props name = false -> play props name s = (s, []).
Proof. intro A. unfold play. rewrite A, orb_true_r. reflexivity. Qed.

Lemma play_switch (name : string) (s : Ghost) :
  curr s <> name -> hasAction props name = true ->
  play props name s =
  (setCurr name s,
   map ActionStop (actions props)
     ++ [ActionReset name; ActionFadeIn name FADE_IN; ActionPlay name]).
Proof.
  intros E A. unfold play. apply String.eqb_neq in E. rewrite E, A.
  reflexivity.
Qed.

(** [play] does nothing, or switches to a clip that exists and is not the
    current one. *)
Lemma play_cases (P : Ghost * list Effect -> Prop) (name : string) (s : Ghost) :
  P (s, []) ->
  (curr s <> name -> hasAction props name = true ->
   P (setCurr name s,
      map ActionStop (actions props)
        ++ [ActionReset name; ActionFadeIn name FADE_IN; ActionPlay name])) ->
  P (play props name s).
Proof.
  intros Hn Hs. destruct (String.eqb_spec (curr s) name) as [E|E].
  - rewrite (play_same name s E). exact Hn.
  - destruct (hasAction props name) eqn:A.
    + rewrite (play_switch name s E A). exact (Hs E eq_refl).
    + rewrite (play_missing name s A). exact Hn.
Qed.

(** The four ways a frame can go: nothing, pursuit, retreat, attack within
    the cooldown.  The position handed to the body is left abstract. *)
Lemma useFrame_cases (P : Ghost * list Effect -> Prop)
  (playerRef : option V3) (dt now : R) (s : Ghost) :
  P (s, []) ->
  (forall p r v, playerRef = Some p -> rigid s = Some r -> dead s = false ->
     let s1 := setRigid (Some (setNextKinematicTranslation v r)) s in
     P (fst (play props WALK s1),
        (if vanishing s then []
         else [LookAt (x p) (y (translation r)) (z p)])
          ++ SetNextKinematicTranslation v :: snd (play props WALK s1))) ->
  (forall p r v, playerRef = Some p -> rigid s = Some r -> dead s = false ->
     (now - lastAttack s > ATTACK_COOLDOWN)%R ->
     P (setRigid (Some (setNextKinematicTranslation v r))
                 (setLastAttack now (fst (play props ATTACK s))),
        (if vanishing s then []
         else [LookAt (x p) (y (translation r)) (z p)])
          ++ snd (play props ATTACK s)
          ++ [SetNextKinematicTranslation v])) ->
  (forall p r, playerRef = Some p -> rigid s = Some r -> dead s = false ->
     P (fst (play props ATTACK s),
        (if vanishing s then []
         else [LookAt (x p) (y (translation r)) (z p)])
          ++ snd (play props ATTACK s))) ->
  P (useFrame props playerRef dt now s).
Proof.
  intros Hn Hf Hh Hc. unfold useFrame.
  destruct (dead s) eqn:D; [exact Hn|].
  destruct playerRef as [p|]; [|exact Hn].
  destruct (rigid s) as [r|] eqn:Rg; [|exact Hn].
  cbv zeta. destruct (Rgt_dec _ ATTACK_RANGE).
  - match goal with |- context [SetNextKinematicTranslation ?v] =>
      specialize (Hf p r v eq_refl eq_refl eq_refl) end.
    cbv zeta in Hf.
    match goal with |- context [play props WALK ?s1] =>
      destruct (play props WALK s1) end. exact Hf.
  - pose proof (play_frame ATTACK s) as (_ & _ & _ & _ & L & _).
    specialize (Hc p r eq_refl eq_refl eq_refl).
    destruct (play props ATTACK s) as [s1 e1]. cbn [fst snd] in *.
    destruct (Rgt_dec _ ATTACK_COOLDOWN) as [H|H].
    + match goal with |- context [SetNextKinematicTranslation ?v] =>
        specialize (Hh p r v eq_refl eq_refl eq_refl) end.
      apply Hh. rewrite <- L. exact H.
    + exact Hc.
Qed.

Lemma useFrame_frame (playerRef : option V3) (dt now : R) (s : Ghost) :
  let s' := fst (useFrame props playerRef dt now s) in
  hp s' = hp s /\ dead s' = dead s /\ vanishing s' = vanishing s /\
  vanishPosRef s' = vanishPosRef s /\ timers s' = timers s.
Proof.
  unfold useFrame. destruct (dead s) eqn:D; simpl; [auto|].
  destruct playerRef as [p|]; [|simpl; auto].
  destruct (rigid s) as [r|] eqn:Rg; [|simpl; auto].
  destruct (Rgt_dec _ ATTACK_RANGE).
  - match goal with |- context [play props WALK ?s1] =>
      pose proof (play_frame WALK s1) as F;
      destruct (play props WALK s1) as [s2 e2] end.
    simpl in *. intuition congruence.
  - pose proof (play_frame ATTACK s) as F.
    destruct (play props ATTACK s) as [s1 e1].
    destruct (Rgt_dec _ ATTACK_COOLDOWN); simpl in *; intuition congruence.
Qed.

Lemma count_none (g f : Effect -> bool) (tr : list Effect) :
  (forall e, g e = true -> f e = false) ->
  forallb g tr = true -> count f tr = 0.
Proof.
  intros Hf. unfold count. induction tr as [|e tr IH]; simpl; intro H.
  - reflexivity.
  - apply andb_true_iff in H. destruct H as [He Htr].
    rewrite (Hf e He). auto.
Qed.

Lemma useFrame_effects (playerRef : option V3) (dt now : R) (s : Ghost) :
  forallb isFrameEffect (snd (useFrame props playerRef dt now s)) = true.
Proof.
  assert (A : forall name st,
             forallb isFrameEffect (snd (play props name st)) = true).
  { intros name st. pose proof (play_effects_animation name st) as H.
    rewrite forallb_forall in *. intros e I. apply H in I.
    destruct e; simpl in *; congruence. }
  apply useFrame_cases; intros; cbn [snd]; repeat rewrite forallb_app;
    simpl; repeat rewrite A; destruct (vanishing s); reflexivity.
Qed.

Lemma useFrame_count_none (f : Effect -> bool)
  (playerRef : option V3) (dt now : R) (s : Ghost) :
  (forall e, isFrameEffect e = true -> f e = false) ->
  count f (snd (useFrame props playerRef dt now s)) = 0.
Proof.
  intro H. apply (count_none isFrameEffect); [exact H|].
  apply useFrame_effects.
Qed.

(** What one event can be for the component. *)
Lemma step_cases (P : Ghost * list Effect -> Prop)
  (now : R) (ev : Event) (s : Ghost) :
  P (s, []) ->
  (forall others, P (drain (vanishing s) now others s)) ->
  P (startVanish (vanishing s) now s) ->
  (forall d rest, timers s = d :: rest -> (d <= now)%R ->
     P (vanishTimeout props (setTimers rest s))) ->
  (forall playerRef dt, P (useFrame props playerRef dt now s)) ->
  (forall g r, rigid s = Some r -> P (setRigid (Some (moveTo g r)) s, [])) ->
  P (step props now ev s).
Proof.
  intros Hn Hh Hv Ht Hf Hp.
  destruct ev as [others|raining| |playerRef dt|g]; simpl.
  - apply Hh.
  - unfold rainingEffect. destruct (negb raining); [exact Hv|exact Hn].
  - destruct (timers s) as [|d rest] eqn:Ts; [exact Hn|].
    destruct (Rle_dec d now) as [L|L]; [|exact Hn].
    exact (Ht d rest eq_refl L).
  - apply Hf.
  - destruct (rigid s) as [r|] eqn:Rg; [|exact Hn]. exact (Hp g r eq_refl).
Qed.

(** Induction over a run, for a property of the state reached and of the
    trace so far. *)
Lemma run_trace_ind (Q : Ghost -> list Effect -> Prop) :
  (forall now ev s tr,
     Q s tr -> Q (fst (step props now ev s)) (tr ++ snd (step props now ev s))) ->
  forall evs s tr,
    Q s tr -> Q (fst (run props evs s)) (tr ++ snd (run props evs s)).
Proof.
  intros Hstep evs. induction evs as [|[now ev] evs IH]; intros s tr H.
  - simpl. rewrite app_nil_r. exact H.
  - rewrite run_cons. cbn [fst snd]. rewrite app_assoc.
    apply IH, Hstep, H.
Qed.

Lemma run_state_ind (P : Ghost -> Prop) :
  (forall now ev s, P s -> P (fst (step props now ev s))) ->
  forall evs s, P s -> P (fst (run props evs s)).
Proof.
  intros Hstep evs s H.
  apply (run_trace_ind (fun s _ => P s)
           (fun now ev s _ => Hstep now ev s) evs s [] H).
Qed.


(** ** The lifecycle *)

Lemma stepOk_flags (s s' : Ghost) :
  dead s' = dead s -> implb (vanishing s) (vanishing s') = true ->
  (vanishFirst s -> vanishFirst s') -> stepOk s s'.
Proof.
  intros D V I. unfold stepOk, lifecycleState. rewrite D.
  split; [destruct (dead s); reflexivity|]. split; [exact V|].
  intro H. split; [exact (I H)|].
  destruct (dead s); [constructor|].
  destruct (vanishing s), (vanishing s'); try discriminate; constructor.
Qed.

Lemma stepOk_refl (s : Ghost) : stepOk s s.
Proof.
  apply stepOk_flags; auto. destruct (vanishing s); reflexivity.
Qed.

Lemma stepOk_startVanish (c : bool) (now : R) (s : Ghost) :
  stepOk s (fst (startVanish c now s)).
Proof.
  pose proof (startVanish_frame c now s) as (D & _ & _ & _ & V & _).
  apply stepOk_flags; auto. apply startVanish_vanishFirst.
Qed.

(** The flags over the intersections of one physics step. *)
Lemma drain_flags (c : bool) (now : R) (others : list (option UserData))
  (s : Ghost) :
  stale c s ->
  let s' := fst (drain c now others s) in
  dead s' = dead s /\ implb (vanishing s) (vanishing s') = true /\
  (vanishFirst s -> vanishFirst s').
Proof.
  intro St.
  apply (drain_state_ind c now
           (fun s' => dead s' = dead s /\
                      implb (vanishing s) (vanishing s') = true /\
                      (vanishFirst s -> vanishFirst s'))); [|exact St|].
  - intros other s1 _ (D & V & I). apply hit_cases.
    + auto.
    + intros d _ _. auto.
    + intros d _ _.
      pose proof (startVanish_frame c now s1) as (D1 & _ & _ & _ & V1 & _).
      cbn [fst]. simpl. rewrite D1. split; [exact D|]. split.
      * destruct (vanishing s), (vanishing s1),
          (vanishing (fst (startVanish c now s1))); auto.
      * intro H. apply (startVanish_vanishFirst c now s1), I, H.
  - split; [reflexivity|]. split; [destruct (vanishing s); reflexivity|auto].
Qed.

Lemma step_facts (now : R) (ev : Event) (s : Ghost) :
  stepOk s (fst (step props now ev s)).
Proof.
  apply (step_cases (fun res => stepOk s (fst res))).
  - apply stepOk_refl.
  - intro others.
    destruct (drain_flags (vanishing s) now others s (stale_now s))
      as (D & V & I).
    apply stepOk_flags; assumption.
  - apply stepOk_startVanish.
  - intros d rest Ts _.
    unfold stepOk, vanishTimeout, lifecycleState, vanishFirst.
    simpl. split; [destruct (dead s); reflexivity|].
    split; [destruct (vanishing s); reflexivity|].
    intros [_ Ht].
    assert (V : vanishing s = true) by (apply Ht; rewrite Ts; discriminate).
    rewrite V. split; [split; reflexivity|].
    destruct (dead s); constructor.
  - intros playerRef dt.
    pose proof (useFrame_frame playerRef dt now s) as (_ & D & V & _ & Ts).
    unfold stepOk, vanishFirst, lifecycleState. rewrite D, V, Ts.
    split; [destruct (dead s); reflexivity|].
    split; [destruct (vanishing s); reflexivity|].
    intro H. split; [exact H|constructor].
  - intros g r _. apply stepOk_flags; simpl; auto.
    destruct (vanishing s); reflexivity.
Qed.

(** ** Reachable states *)

Lemma mount_vanishFirst (r : option Body) : vanishFirst (mount props r).
Proof. split; simpl; [discriminate|congruence]. Qed.

Lemma run_vanishFirst (evs : list (R * Event)) (s : Ghost) :
  vanishFirst s -> vanishFirst (fst (run props evs s)).
Proof.
  apply (run_state_ind vanishFirst). intros now ev s0 H.
  destruct (step_facts now ev s0) as (_ & _ & I). apply I, H.
Qed.

Lemma forward_rank (l l' : Lifecycle) :
  forward l l' -> rank l <= rank l'.
Proof. intros []; simpl; auto. Qed.

Lemma forward_removed (l : Lifecycle) : forward Removed l -> l = Removed.
Proof. intro H. inversion H. reflexivity. Qed.

(** C2: from every state a mounted ghost can reach, whatever event comes
    next (an intersection, the raining effect, a timeout, a frame, a physics
    step), the lifecycle state stays or moves one state forward along
    Alive, Vanishing, Removed: [vanishing] and [dead] are never reset, the
    rank never decreases, from Removed only Removed follows, and Removed is
    entered from Vanishing only. *)
Theorem lifecycle_moves_forward
  (r : option Body) (evs : list (R * Event)) (now : R) (ev : Event) :
  let s := fst (run props evs (mount props r)) in
  let s' := fst (step props now ev s) in
  forward (lifecycleState s) (lifecycleState s') /\
  implb (vanishing s) (vanishing s') = true /\
  implb (dead s) (dead s') = true /\
  rank (lifecycleState s) <= rank (lifecycleState s').
Proof.
  intros s s'.
  destruct (step_facts now ev s) as (D & V & I).
  assert (F : forward (lifecycleState s) (lifecycleState s')).
  { apply I. apply run_vanishFirst, mount_vanishFirst. }
  repeat split; auto using forward_rank.
Qed.


(** ** Entering the vanishing state *)

Lemma step_keeps_vanishPos (now : R) (ev : Event) (s : Ghost) :
  vanishing s = true ->
  vanishing (fst (step props now ev s)) = true /\
  vanishPosRef (fst (step props now ev s)) = vanishPosRef s.
Proof.
  intro V.
  apply (step_cases (fun res => vanishing (fst res) = true /\
                                vanishPosRef (fst res) = vanishPosRef s)).
  - auto.
  - intro others. rewrite V.
    apply (drain_state_ind true now
             (fun s' => vanishing s' = true /\
                        vanishPosRef s' = vanishPosRef s)); auto.
    + intros other s1 _ I. apply hit_cases; auto.
    + intros _. exact V.
  - rewrite V. auto.
  - intros d rest _ _. simpl. auto.
  - intros playerRef dt.
    pose proof (useFrame_frame playerRef dt now s) as (_ & _ & V' & P & _).
    rewrite V', P. auto.
  - intros g r _. simpl. auto.
Qed.

Lemma run_keeps_vanishPos (evs : list (R * Event)) (s : Ghost) :
  vanishing s = true ->
  vanishPosRef (fst (run props evs s)) = vanishPosRef s.
Proof.
  revert s. induction evs as [|[now ev] evs IH]; intros s V.
  - reflexivity.
  - rewrite run_cons. simpl.
    destruct (step_keeps_vanishPos now ev s V) as [V' P].
    rewrite (IH _ V'). exact P.
Qed.

(** C5: the first [startVanish] of a ghost whose body is mounted makes
    exactly two calls, [setEnabled(false)] on the body and [setTimeout] with
    2200 ms; in the same step [vanishing] is set, the body is disabled, the
    body's position is stored in [vanishPosRef] and the deadline [now + 2200]
    is recorded.  No later event changes [vanishPosRef], and a further call
    from the same render stores the same position.  The timeout does
    nothing before its deadline; from the deadline on it sets [dead]
    (Removed) and calls [onDead] when that prop was given. *)
Theorem startVanish_entry (now : R) (s : Ghost) (r : Body) :
  vanishing s = false -> rigid s = Some r ->
  let s' := fst (startVanish (vanishing s) now s) in
  snd (startVanish (vanishing s) now s)
    = [SetEnabled false; SetTimeout VANISH_DURATION] /\
  vanishing s' = true /\
  vanishPosRef s' = translation r /\
  rigid s' = Some (setEnabled false r) /\
  timers s' = timers s ++ [(now + VANISH_DURATION)%R] /\
  (forall evs, vanishPosRef (fst (run props evs s')) = translation r) /\
  (forall t, timers s = [] ->
     ((t < now + VANISH_DURATION)%R -> step props t TimerFires s' = (s', [])) /\
     ((now + VANISH_DURATION <= t)%R ->
        lifecycleState (fst (step props t TimerFires s')) = Removed /\
        timers (fst (step props t TimerFires s')) = [] /\
        snd (step props t TimerFires s')
          = if onDead props then [OnDead] else [])) /\
  (forall now', vanishPosRef (fst (startVanish false now' s')) = translation r).
Proof.
  intros V Rg s'.
  assert (E : startVanish (vanishing s) now s =
              (setTimers (timers s ++ [(now + VANISH_DURATION)%R])
                 (setRigid (Some (setEnabled false r))
                    (setVanishPos (translation r) (setVanishing true s))),
               [SetEnabled false; SetTimeout VANISH_DURATION])).
  { rewrite V, startVanish_enter, Rg. reflexivity. }
  subst s'. rewrite E. simpl.
  repeat (split; [reflexivity|]). split; [|split].
  - intro evs. rewrite run_keeps_vanishPos; reflexivity.
  - intros t Ts. rewrite Ts. simpl. split; intro H.
    + destruct (Rle_dec _ t) as [L|L]; [lra|reflexivity].
    + destruct (Rle_dec _ t) as [L|L]; [|lra].
      simpl. auto.
  - intro now'. reflexivity.
Qed.

(** ** The animation selector, continued *)

Lemma count_play_stops (l : list string) :
  count isActionPlay (map ActionStop l) = 0.
Proof. unfold count. induction l; simpl; auto. Qed.

(** C8: a second request for the clip just requested does nothing, so two
    successive identical requests start a clip at most once; a request for
    the current clip does nothing; a request for another clip that exists
    stops every clip, resets the requested one, fades it in over 0.2 s,
    plays it and records it in [curr], and with its repetition starts a
    clip exactly once. *)
Theorem play_idempotent (name : string) (s : Ghost) :
  let s1 := fst (play props name s) in
  let e1 := snd (play props name s) in
  play props name s1 = (s1, []) /\
  count isActionPlay (e1 ++ snd (play props name s1)) <= 1 /\
  (curr s = name -> play props name s = (s, [])) /\
  (curr s <> name -> hasAction props name = true ->
   e1 = map ActionStop (actions props)
          ++ [ActionReset name; ActionFadeIn name FADE_IN; ActionPlay name] /\
   curr s1 = name /\
   count isActionPlay (e1 ++ snd (play props name s1)) = 1).
Proof.
  intros s1 e1. subst s1 e1.
  destruct (String.eqb_spec (curr s) name) as [E|E].
  - rewrite (play_same name s E). simpl. rewrite (play_same name s E).
    simpl. repeat split; auto; congruence.
  - destruct (hasAction props name) eqn:A.
    + rewrite (play_switch name s E A). simpl.
      rewrite (play_same name (setCurr name s) eq_refl). simpl.
      rewrite app_nil_r, count_app, count_play_stops. simpl.
      repeat split; auto; congruence.
    + rewrite (play_missing name s A). simpl. rewrite (play_missing name s A).
      simpl. repeat split; auto; congruence.
Qed.

(** ** Motion commands keep the height *)

Lemma animation_not_motion (v : V3) (tr : list Effect) :
  forallb isAnimation tr = true -> ~ In (SetNextKinematicTranslation v) tr.
Proof.
  intros A H. rewrite forallb_forall in A. apply A in H. discriminate.
Qed.

Lemma lookAt_not_motion (v : V3) (b : bool) (px py pz : R) :
  ~ In (SetNextKinematicTranslation v) (if b then [] else [LookAt px py pz]).
Proof. destruct b; simpl; [tauto|]. intros [H|[]]. discriminate. Qed.

(** C10: every position a frame hands to [setNextKinematicTranslation],
    the pursuit step as well as the retreat step, has the y coordinate of
    the body's current translation, and it is the position recorded in the
    body. *)
Theorem motion_keeps_height
  (playerRef : option V3) (dt now : R) (s : Ghost) (r : Body) (v : V3) :
  rigid s = Some r ->
  In (SetNextKinematicTranslation v) (snd (useFrame props playerRef dt now s)) ->
  y v = y (translation r) /\
  rigid (fst (useFrame props playerRef dt now s))
    = Some (setNextKinematicTranslation v r).
Proof.
  intros Rg. unfold useFrame. rewrite Rg.
  destruct (dead s); [intros []|].
  destruct playerRef as [p|]; [|intros []].
  destruct (Rgt_dec _ ATTACK_RANGE).
  - match goal with |- context [play props WALK ?s1] =>
      pose proof (play_frame WALK s1) as (_ & _ & _ & _ & _ & F & _);
      pose proof (play_effects_animation WALK s1) as A;
      destruct (play props WALK s1) as [s2 e2] end.
    simpl in *. intro H. apply in_app_or in H. destruct H as [H|[H|H]].
    + exfalso. exact (lookAt_not_motion _ _ _ _ _ H).
    + injection H as <-. simpl. auto.
    + exfalso. exact (animation_not_motion _ _ A H).
  - pose proof (play_frame ATTACK s) as (_ & _ & _ & _ & _ & F & _).
    pose proof (play_effects_animation ATTACK s) as A.
    destruct (play props ATTACK s) as [s1 e1].
    destruct (Rgt_dec _ ATTACK_COOLDOWN); simpl in *; intro H;
      apply in_app_or in H; destruct H as [H|H];
      try (exfalso; exact (lookAt_not_motion _ _ _ _ _ H)).
    + apply in_app_or in H. destruct H as [H|[H|[]]].
      * exfalso. exact (animation_not_motion _ _ A H).
      * injection H as <-. simpl. auto.
    + exfalso. exact (animation_not_motion _ _ A H).
Qed.


(** ** Hit points and the health bar *)

Lemma hitDamage_positive (other : option UserData) (d : Z) :
  match other with
  | Some ud => (0 <? damageOf ud)%Z
  | None => true
  end = true ->
  hitDamage other = Some d -> (0 < d)%Z.
Proof.
  unfold hitDamage. destruct other as [ud|]; [|discriminate].
  intros P H. destruct (type ud) as [ty|]; [|discriminate].
  destruct (String.eqb ty MAGIC); [|discriminate].
  injection H as <-. apply Z.ltb_lt, P.
Qed.

Lemma hit_hpInRange (c : bool) (now : R) (other : option UserData) (s : Ghost) :
  (forall d, hitDamage other = Some d -> (0 < d)%Z) ->
  stale c s -> hpInRange s ->
  hpInRange (fst (onIntersectionEnter c now other s)).
Proof.
  intros P St I. apply hit_cases.
  - exact I.
  - intros d H L. specialize (P d H). unfold hpInRange in *. simpl.
    intro V. apply I in V. unfold MAX_HP in *. lia.
  - intros d _ _.
    pose proof (startVanish_frame c now s) as (_ & _ & _ & _ & _ & V).
    unfold hpInRange. simpl. rewrite (V St). discriminate.
Qed.

Lemma drain_hpInRange (c : bool) (now : R) (others : list (option UserData))
  (s : Ghost) :
  positiveDamage (IntersectionEnter others) = true ->
  stale c s -> hpInRange s -> hpInRange (fst (drain c now others s)).
Proof.
  revert s. induction others as [|other others IH]; intros s P St I.
  - exact I.
  - simpl in P. apply andb_true_iff in P. destruct P as [P1 P2].
    rewrite drain_cons. cbn [fst]. apply IH.
    + exact P2.
    + apply onIntersectionEnter_stale, St.
    + apply hit_hpInRange; [|exact St|exact I].
      intros d. apply hitDamage_positive, P1.
Qed.

Lemma step_hpInRange (now : R) (ev : Event) (s : Ghost) :
  positiveDamage ev = true -> hpInRange s ->
  hpInRange (fst (step props now ev s)).
Proof.
  intros P I. destruct ev as [others|raining| |playerRef dt|g]; simpl.
  - apply drain_hpInRange; [exact P|apply stale_now|exact I].
  - unfold rainingEffect. destruct (negb raining); [|exact I].
    pose proof (startVanish_frame (vanishing s) now s)
      as (_ & _ & _ & _ & _ & V).
    unfold hpInRange. rewrite (V (stale_now s)). discriminate.
  - destruct (timers s) as [|d rest]; [exact I|].
    destruct (Rle_dec d now); exact I.
  - pose proof (useFrame_frame playerRef dt now s) as (H & _ & V & _).
    unfold hpInRange in *. rewrite H, V. exact I.
  - destruct (rigid s); exact I.
Qed.

Lemma run_hpInRange (evs : list (R * Event)) (s : Ghost) :
  positiveDamages evs = true -> hpInRange s ->
  hpInRange (fst (run props evs s)).
Proof.
  revert s. induction evs as [|[now ev] evs IH]; intros s P I.
  - exact I.
  - simpl in P. apply andb_true_iff in P. destruct P as [P1 P2].
    rewrite run_cons. simpl. apply IH; [exact P2|].
    apply step_hpInRange; assumption.
Qed.

(** C9, amended: over every sequence of events whose hits carry a positive
    damage, whenever the health bar is rendered (the ghost is neither
    vanishing nor dead) its fraction [hp / MAX_HP] is above 0 and at
    most 1. *)
Theorem healthBar_in_range
  (r : option Body) (evs : list (R * Event)) (f : Q) :
  positiveDamages evs = true ->
  healthBar (fst (run props evs (mount props r))) = Some f ->
  (0 < f)%Q /\ (f <= 1)%Q.
Proof.
  intros P H.
  assert (I : hpInRange (fst (run props evs (mount props r)))).
  { apply run_hpInRange; [exact P|]. intros _. simpl. unfold MAX_HP. lia. }
  unfold healthBar in H. unfold hpInRange in I.
  destruct (dead _); [discriminate|].
  destruct (vanishing _); [discriminate|].
  injection H as <-. specialize (I eq_refl).
  unfold healthFraction, MAX_HP in *.
  unfold Qlt, Qle, Qdiv, Qmult, Qinv, inject_Z. simpl. lia.
Qed.

(** ** Horizontal directions *)

Lemma hypot_nonneg (a b : R) : (0 <= hypot a b)%R.
Proof. apply sqrt_pos. Qed.

Lemma hypot_sqr (a b : R) : (hypot a b * hypot a b = a * a + b * b)%R.
Proof. unfold hypot. apply sqrt_sqrt. nra. Qed.

Lemma hypot_eq (a b c : R) :
  (0 <= c)%R -> (a * a + b * b = c * c)%R -> hypot a b = c.
Proof.
  intros Hc E. unfold hypot. rewrite E. apply sqrt_square. exact Hc.
Qed.

Lemma length_horizontal (a b : R) : Vector3.length (mk a 0 b) = hypot a b.
Proof.
  unfold Vector3.length, hypot. simpl. f_equal. ring.
Qed.

(** The normalised horizontal vector, away from the zero vector. *)
Lemma normalize_horizontal (a b : R) :
  hypot a b <> 0%R ->
  normalize (mk a 0 b) = mk (a / hypot a b) 0 (b / hypot a b).
Proof.
  intro N. unfold normalize. rewrite length_horizontal.
  destruct (Req_dec_T (hypot a b) 0) as [E|_]; [contradiction|].
  unfold divideScalar, multiplyScalar. simpl. f_equal; field; exact N.
Qed.

(** The zero vector is left as it is. *)
Lemma normalize_zero : normalize (mk 0 0 0) = mk 0 0 0.
Proof.
  unfold normalize.
  assert (L : Vector3.length (mk 0 0 0) = 0%R).
  { rewrite length_horizontal. apply hypot_eq; lra. }
  rewrite L. destruct (Req_dec_T 0 0) as [_|N]; [|contradiction].
  unfold divideScalar, multiplyScalar. simpl. f_equal; field.
Qed.

Lemma hypot_zero (a b : R) : hypot a b = 0%R -> a = 0%R /\ b = 0%R.
Proof.
  intro H. pose proof (hypot_sqr a b) as S. rewrite H in S. split; nra.
Qed.

Lemma unit_horizontal (a b : R) :
  hypot a b <> 0%R -> hypot (a / hypot a b) (b / hypot a b) = 1%R.
Proof.
  intro N. apply hypot_eq; [lra|].
  pose proof (hypot_sqr a b) as S.
  transitivity ((a * a + b * b) / (hypot a b * hypot a b))%R.
  - field. exact N.
  - rewrite <- S. field. exact N.
Qed.

(** A step of [k] units along the normalised horizontal vector has
    length [k] and leaves the height alone. *)
Lemma step_length (g : V3) (a b k : R) :
  hypot a b <> 0%R -> (0 <= k)%R ->
  distanceTo g (mk (x g + a / hypot a b * k) (y g) (z g + b / hypot a b * k))
  = k.
Proof.
  intros N K. unfold distanceTo, Vector3.length. simpl.
  pose proof (hypot_sqr a b) as S.
  replace (_ + _ + _)%R with (k * k)%R; [apply sqrt_square; exact K|].
  transitivity ((a * a + b * b) / (hypot a b * hypot a b) * (k * k))%R.
  - rewrite <- S. field. exact N.
  - field. exact N.
Qed.

(** ** The frame callback *)

Lemma useFrame_noop (playerRef : option V3) (dt now : R) (s : Ghost) :
  dead s = true \/ playerRef = None \/ rigid s = None ->
  useFrame props playerRef dt now s = (s, []).
Proof.
  unfold useFrame. intros [D|[P|Rg]].
  - rewrite D. reflexivity.
  - rewrite P. destruct (dead s); reflexivity.
  - rewrite Rg. destruct (dead s); [reflexivity|].
    destruct playerRef; reflexivity.
Qed.

(** The pursuit branch. *)
Lemma useFrame_far (p : V3) (dt now : R) (s : Ghost) (r : Body) :
  dead s = false -> rigid s = Some r ->
  let g := translation r in
  let dist := hypot (x p - x g) (z p - z g) in
  (dist > ATTACK_RANGE)%R ->
  let next := mk (x g + (x p - x g) / dist * WALK_SPEED * dt) (y g)
                 (z g + (z p - z g) / dist * WALK_SPEED * dt) in
  let s1 := setRigid (Some (setNextKinematicTranslation next r)) s in
  useFrame props (Some p) dt now s =
    (fst (play props WALK s1),
     (if vanishing s then [] else [LookAt (x p) (y g) (z p)])
       ++ SetNextKinematicTranslation next :: snd (play props WALK s1)).
Proof.
  intros D Rg g dist Far next s1.
  assert (N : dist <> 0%R) by (unfold ATTACK_RANGE in Far; lra).
  unfold useFrame. rewrite D, Rg. fold g. fold dist.
  destruct (Rgt_dec dist ATTACK_RANGE) as [_|C]; [|contradiction].
  rewrite (normalize_horizontal _ _ N). simpl. fold dist. fold next.
  fold s1. destruct (play props WALK s1); reflexivity.
Qed.

Lemma play_no_motion (name : string) (s : Ghost) :
  count isMotion (snd (play props name s)) = 0.
Proof.
  apply count_animation_none; [|apply play_effects_animation].
  intros [] E; simpl in *; congruence.
Qed.

(** The attack branch within the cooldown. *)
Lemma useFrame_near_cool (p : V3) (dt now : R) (s : Ghost) (r : Body) :
  dead s = false -> rigid s = Some r ->
  let g := translation r in
  (hypot (x p - x g) (z p - z g) <= ATTACK_RANGE)%R ->
  (now - lastAttack s <= ATTACK_COOLDOWN)%R ->
  useFrame props (Some p) dt now s =
    (fst (play props ATTACK s),
     (if vanishing s then [] else [LookAt (x p) (y g) (z p)])
       ++ snd (play props ATTACK s)) /\
  count isMotion (snd (useFrame props (Some p) dt now s)) = 0.
Proof.
  intros D Rg g Near Cool.
  assert (E : useFrame props (Some p) dt now s =
              (fst (play props ATTACK s),
               (if vanishing s then [] else [LookAt (x p) (y g) (z p)])
                 ++ snd (play props ATTACK s))).
  { unfold useFrame. rewrite D, Rg. fold g.
    destruct (Rgt_dec _ ATTACK_RANGE) as [C|_]; [lra|].
    pose proof (play_frame ATTACK s) as (_ & _ & _ & _ & L & _).
    destruct (play props ATTACK s) as [s1 e1]. simpl in *.
    destruct (Rgt_dec _ ATTACK_COOLDOWN) as [C|_]; [lra|]. reflexivity. }
  split; [exact E|]. rewrite E. simpl. rewrite count_app, play_no_motion.
  destruct (vanishing s); reflexivity.
Qed.

(** The attack branch after the cooldown. *)
Lemma useFrame_near_hot (p : V3) (dt now : R) (s : Ghost) (r : Body) :
  dead s = false -> rigid s = Some r ->
  let g := translation r in
  (hypot (x p - x g) (z p - z g) <= ATTACK_RANGE)%R ->
  (now - lastAttack s > ATTACK_COOLDOWN)%R ->
  let backDir := normalize (mk (x g - x p) 0 (z g - z p)) in
  let retreat := mk (x g + x backDir * RETREAT_STEP) (y g)
                    (z g + z backDir * RETREAT_STEP) in
  useFrame props (Some p) dt now s =
    (setRigid (Some (setNextKinematicTranslation retreat r))
              (setLastAttack now (fst (play props ATTACK s))),
     ((if vanishing s then [] else [LookAt (x p) (y g) (z p)])
        ++ snd (play props ATTACK s))
       ++ [SetNextKinematicTranslation retreat]).
Proof.
  intros D Rg g Near Hot backDir retreat.
  unfold useFrame. rewrite D, Rg. fold g.
  destruct (Rgt_dec _ ATTACK_RANGE) as [C|_]; [lra|].
  pose proof (play_frame ATTACK s) as (_ & _ & _ & _ & L & _).
  destruct (play props ATTACK s) as [st1 e1]. simpl in *.
  destruct (Rgt_dec _ ATTACK_COOLDOWN) as [_|C]; [|lra].
  fold backDir. fold retreat. rewrite app_assoc. reflexivity.
Qed.

(** The retreat target when the player is not at the ghost's planar
    position, and when it is. *)
Lemma retreat_away (g p : V3) :
  let dist := hypot (x p - x g) (z p - z g) in
  let backDir := normalize (mk (x g - x p) 0 (z g - z p)) in
  let retreat := mk (x g + x backDir * RETREAT_STEP) (y g)
                    (z g + z backDir * RETREAT_STEP) in
  (0 < dist)%R ->
  retreat = mk (x g + (x g - x p) / dist * RETREAT_STEP) (y g)
               (z g + (z g - z p) / dist * RETREAT_STEP) /\
  distanceTo g retreat = RETREAT_STEP.
Proof.
  intros dist backDir retreat Pos.
  assert (Sym : hypot (x g - x p) (z g - z p) = dist).
  { unfold dist, hypot. f_equal. ring. }
  assert (N : hypot (x g - x p) (z g - z p) <> 0%R) by lra.
  assert (E : retreat =
              mk (x g + (x g - x p) / dist * RETREAT_STEP) (y g)
                 (z g + (z g - z p) / dist * RETREAT_STEP)).
  { subst retreat backDir. rewrite (normalize_horizontal _ _ N).
    rewrite Sym. reflexivity. }
  split; [exact E|]. rewrite E, <- Sym.
  apply step_length; [exact N|]. unfold RETREAT_STEP. lra.
Qed.

Lemma retreat_nowhere (g p : V3) :
  let dist := hypot (x p - x g) (z p - z g) in
  let backDir := normalize (mk (x g - x p) 0 (z g - z p)) in
  let retreat := mk (x g + x backDir * RETREAT_STEP) (y g)
                    (z g + z backDir * RETREAT_STEP) in
  dist = 0%R -> retreat = g.
Proof.
  intros dist backDir retreat Z. apply hypot_zero in Z.
  destruct Z as [Zx Zz]. subst retreat backDir.
  replace (x g - x p)%R with 0%R by lra.
  replace (z g - z p)%R with 0%R by lra.
  rewrite normalize_zero. simpl. destruct g as [gx gy gz]. simpl.
  f_equal; ring.
Qed.

(** C6: in a frame of a ghost that is not dead and has its body, with the
    player further away than ATTACK_RANGE in the plane, the position handed
    to the body is the current one plus the horizontal direction to the
    player, divided by the planar distance, times WALK_SPEED times dt; that
    direction has length 1, so for dt >= 0 the step has length
    WALK_SPEED * dt; and the clip requested is the walk clip. *)
Theorem useFrame_pursuit (p : V3) (dt now : R) (s : Ghost) (r : Body) :
  dead s = false -> rigid s = Some r ->
  let g := translation r in
  let dist := hypot (x p - x g) (z p - z g) in
  (dist > ATTACK_RANGE)%R ->
  let next := mk (x g + (x p - x g) / dist * WALK_SPEED * dt) (y g)
                 (z g + (z p - z g) / dist * WALK_SPEED * dt) in
  let s1 := setRigid (Some (setNextKinematicTranslation next r)) s in
  useFrame props (Some p) dt now s =
    (fst (play props WALK s1),
     (if vanishing s then [] else [LookAt (x p) (y g) (z p)])
       ++ SetNextKinematicTranslation next :: snd (play props WALK s1)) /\
  hypot ((x p - x g) / dist) ((z p - z g) / dist) = 1%R /\
  ((0 <= dt)%R -> distanceTo g next = (WALK_SPEED * dt)%R).
Proof.
  intros D Rg g dist Far next s1.
  assert (N : dist <> 0%R) by (unfold ATTACK_RANGE in Far; lra).
  split; [|split].
  - apply useFrame_far; assumption.
  - apply unit_horizontal. exact N.
  - intro T. subst next.
    replace ((x p - x g) / dist * WALK_SPEED * dt)%R
      with ((x p - x g) / dist * (WALK_SPEED * dt))%R by ring.
    replace ((z p - z g) / dist * WALK_SPEED * dt)%R
      with ((z p - z g) / dist * (WALK_SPEED * dt))%R by ring.
    apply step_length; [exact N|]. unfold WALK_SPEED. lra.
Qed.

(** C7, amended: in a frame of a ghost that is not dead and has its body,
    with the player within ATTACK_RANGE in the plane, the clip requested is
    the attack clip.  When more than ATTACK_COOLDOWN has passed since
    [lastAttack], [lastAttack] becomes [now] and one position is handed to
    the body: the current one plus 0.3 times the normalised horizontal
    vector away from the player, whatever dt is.  When the planar distance
    is not zero this is a step of exactly 0.3 units; when it is zero the
    position handed over is the current position.  Otherwise no position is
    handed over and [lastAttack] stays; so a frame that follows a retreat
    by at most ATTACK_COOLDOWN hands over none. *)
Theorem useFrame_attack (p : V3) (dt now : R) (s : Ghost) (r : Body) :
  dead s = false -> rigid s = Some r ->
  let g := translation r in
  let dist := hypot (x p - x g) (z p - z g) in
  (dist <= ATTACK_RANGE)%R ->
  let s1 := fst (play props ATTACK s) in
  let e := (if vanishing s then [] else [LookAt (x p) (y g) (z p)])
             ++ snd (play props ATTACK s) in
  let backDir := normalize (mk (x g - x p) 0 (z g - z p)) in
  let retreat := mk (x g + x backDir * RETREAT_STEP) (y g)
                    (z g + z backDir * RETREAT_STEP) in
  ((now - lastAttack s > ATTACK_COOLDOWN)%R ->
   useFrame props (Some p) dt now s =
     (setRigid (Some (setNextKinematicTranslation retreat r))
               (setLastAttack now s1),
      e ++ [SetNextKinematicTranslation retreat]) /\
   ((0 < dist)%R ->
    retreat = mk (x g + (x g - x p) / dist * RETREAT_STEP) (y g)
                 (z g + (z g - z p) / dist * RETREAT_STEP) /\
    distanceTo g retreat = RETREAT_STEP) /\
   (dist = 0%R -> retreat = g) /\
   (forall p2 dt2 now2,
      (now2 - now <= ATTACK_COOLDOWN)%R ->
      (hypot (x p2 - x g) (z p2 - z g) <= ATTACK_RANGE)%R ->
      count isMotion
        (snd (useFrame props (Some p2) dt2 now2
                (fst (useFrame props (Some p) dt now s)))) = 0)) /\
  ((now - lastAttack s <= ATTACK_COOLDOWN)%R ->
   useFrame props (Some p) dt now s = (s1, e) /\
   lastAttack s1 = lastAttack s /\
   count isMotion e = 0).
Proof.
  intros D Rg g dist Near s1 e backDir retreat. split.
  - intro Hot.
    pose proof (useFrame_near_hot p dt now s r D Rg Near Hot) as Go.
    split; [exact Go|]. split; [|split].
    + apply retreat_away.
    + apply retreat_nowhere.
    + intros p2 dt2 now2 Cool Near2. rewrite Go. simpl.
      apply (useFrame_near_cool p2 dt2 now2 _
               (setNextKinematicTranslation retreat r)); auto.
      pose proof (play_frame ATTACK s) as (_ & D' & _).
      simpl. rewrite D'. exact D.
  - intro Cool.
    destruct (useFrame_near_cool p dt now s r D Rg Near Cool) as [E C].
    split; [exact E|]. split.
    + subst s1. apply (play_frame ATTACK s).
    + rewrite E in C. exact C.
Qed.


(** ** Hit points and kill notifications *)

Lemma startVanish_no_kill (c : bool) (now : R) (s : Ghost) :
  count isAddKill (snd (startVanish c now s)) = 0.
Proof.
  destruct c; [reflexivity|]. rewrite startVanish_enter.
  destruct (rigid s); reflexivity.
Qed.

Lemma startVanish_no_onDead (c : bool) (now : R) (s : Ghost) :
  count isOnDead (snd (startVanish c now s)) = 0.
Proof.
  destruct c; [reflexivity|]. rewrite startVanish_enter.
  destruct (rigid s); reflexivity.
Qed.

Lemma hit_accounting (c : bool) (now : R) (other : option UserData) (s : Ghost) :
  hp (fst (onIntersectionEnter c now other s))
  = (hp s - match hitDamage other with Some d => d | None => 0 end)%Z /\
  count isAddKill (snd (onIntersectionEnter c now other s))
  = match hitDamage other with
    | Some d => if (hp s - d <=? 0)%Z then 1 else 0
    | None => 0
    end.
Proof.
  rewrite onIntersectionEnter_shape.
  destruct (hitDamage other) as [d|]; [|simpl; split; [lia|reflexivity]].
  rewrite handleHit_shape. destruct (hp s - d <=? 0)%Z; simpl.
  - split; [reflexivity|]. pose proof (startVanish_no_kill c now s) as K.
    unfold count in *. simpl. rewrite K. reflexivity.
  - auto.
Qed.

Lemma sum_app (l1 l2 : list Z) :
  fold_right Z.add 0%Z (l1 ++ l2)
  = (fold_right Z.add 0 l1 + fold_right Z.add 0 l2)%Z.
Proof. induction l1 as [|d l1 IH]; simpl; [reflexivity|]. rewrite IH. lia. Qed.

Lemma lethalHits_app (h : Z) (l1 l2 : list Z) :
  lethalHits h (l1 ++ l2)
  = lethalHits h l1 + lethalHits (h - fold_right Z.add 0 l1)%Z l2.
Proof.
  revert h. induction l1 as [|d l1 IH]; intro h; simpl.
  - rewrite Z.sub_0_r. reflexivity.
  - rewrite IH. replace (h - d - fold_right Z.add 0 l1)%Z
      with (h - (d + fold_right Z.add 0 l1))%Z by lia. lia.
Qed.

Lemma drain_accounting (c : bool) (now : R) (others : list (option UserData))
  (s : Ghost) :
  hp (fst (drain c now others s))
  = (hp s - fold_right Z.add 0 (hitDamages others))%Z /\
  count isAddKill (snd (drain c now others s))
  = lethalHits (hp s) (hitDamages others).
Proof.
  revert s. induction others as [|other others IH]; intro s.
  - simpl. split; [lia|reflexivity].
  - rewrite drain_cons. cbn [fst snd]. rewrite count_app.
    destruct (hit_accounting c now other s) as [H K].
    destruct (IH (fst (onIntersectionEnter c now other s))) as [H2 K2].
    rewrite H2, K2, H, K. simpl.
    destruct (hitDamage other) as [d|]; simpl.
    + split; [lia|reflexivity].
    + rewrite Z.sub_0_r. auto.
Qed.

(** Every event but the intersections leaves the hit points alone and
    notifies no kill. *)
Lemma step_quiet (now : R) (ev : Event) (s : Ghost) :
  match ev with IntersectionEnter _ => False | _ => True end ->
  hp (fst (step props now ev s)) = hp s /\
  count isAddKill (snd (step props now ev s)) = 0.
Proof.
  destruct ev as [others|raining| |playerRef dt|g]; simpl; intro H.
  - destruct H.
  - unfold rainingEffect. destruct (negb raining); [|auto].
    pose proof (startVanish_frame (vanishing s) now s) as (_ & Hp & _).
    split; [exact Hp|apply startVanish_no_kill].
  - destruct (timers s) as [|d rest]; [auto|].
    destruct (Rle_dec d now); [|auto].
    simpl. destruct (onDead props); auto.
  - pose proof (useFrame_frame playerRef dt now s) as (Hp & _).
    split; [exact Hp|]. apply useFrame_count_none.
    intros [] E; simpl in *; congruence.
  - destruct (rigid s); auto.
Qed.

(** X1: the hit points after any sequence of events are the initial ones
    minus the damage of all intersections with "magic" bodies (10 for one
    that carries no damage): nothing else changes them and they are never
    clamped. *)
Theorem hp_accounting (evs : list (R * Event)) (s : Ghost) :
  hp (fst (run props evs s)) = (hp s - totalDamage evs)%Z.
Proof.
  unfold totalDamage. revert s.
  induction evs as [|[now ev] evs IH]; intro s.
  - simpl. lia.
  - rewrite run_cons. cbn [fst]. rewrite IH.
    destruct ev as [others|raining| |playerRef dt|g];
      try (match goal with |- context [step props now ?e s] =>
             destruct (step_quiet now e s I) as [H K] end;
           rewrite H; reflexivity).
    simpl. rewrite sum_app.
    rewrite (proj1 (drain_accounting (vanishing s) now others s)). lia.
Qed.

(** X2: over any sequence of events [addKill] is called once for every
    "magic" hit that leaves the hit points at or below zero, and by nothing
    else: not by the raining effect, a timeout, a frame or a hit of another
    type. *)
Theorem kills_accounting (evs : list (R * Event)) (s : Ghost) :
  count isAddKill (snd (run props evs s)) = lethalEvents (hp s) evs.
Proof.
  unfold lethalEvents. revert s.
  induction evs as [|[now ev] evs IH]; intro s.
  - reflexivity.
  - rewrite run_cons. cbn [fst snd]. rewrite count_app, IH.
    destruct ev as [others|raining| |playerRef dt|g];
      try (match goal with |- context [step props now ?e s] =>
             destruct (step_quiet now e s I) as [H K] end;
           rewrite H, K; reflexivity).
    simpl. rewrite lethalHits_app.
    destruct (drain_accounting (vanishing s) now others s) as [H K].
    rewrite H, K. reflexivity.
Qed.

(** ** Timeouts and removal *)

Lemma startVanish_timeouts (c : bool) (now : R) (s : Ghost) :
  timers (fst (startVanish c now s))
  = timers s ++ (if c then [] else [(now + VANISH_DURATION)%R]) /\
  count isSetTimeout (snd (startVanish c now s)) = (if c then 0 else 1).
Proof.
  destruct c; [simpl; rewrite app_nil_r; auto|].
  rewrite startVanish_enter. destruct (rigid s); simpl; auto.
Qed.

(** X3: after any sequence of events, a ghost that is not vanishing has no
    timeout pending and is not dead, and a ghost that is vanishing and not
    yet dead has a timeout pending: its removal is always under way. *)
Theorem pending_timeouts (r : option Body) (evs : list (R * Event)) :
  let s := fst (run props evs (mount props r)) in
  (vanishing s = false -> timers s = [] /\ dead s = false) /\
  (vanishing s = true -> dead s = false -> timers s <> []).
Proof.
  apply (run_state_ind
           (fun s => (vanishing s = false -> timers s = [] /\ dead s = false) /\
                     (vanishing s = true -> dead s = false -> timers s <> []))).
  - intros now ev s [A B].
    assert (SV : forall c,
               let s' := fst (startVanish c now s) in
               (vanishing s' = false -> timers s' = [] /\ dead s' = false) /\
               (vanishing s' = true -> dead s' = false -> timers s' <> [])).
    { intros [|]; [simpl; auto|]. rewrite startVanish_enter.
      destruct (rigid s); simpl; (split; [discriminate|]);
        intros _ _ E; apply app_eq_nil in E; destruct E; discriminate. }
    apply (step_cases
             (fun res =>
                (vanishing (fst res) = false ->
                 timers (fst res) = [] /\ dead (fst res) = false) /\
                (vanishing (fst res) = true -> dead (fst res) = false ->
                 timers (fst res) <> []))).
    + auto.
    + intro others.
      apply (drain_state_ind (vanishing s) now
               (fun s' =>
                  (vanishing s' = false -> timers s' = [] /\ dead s' = false) /\
                  (vanishing s' = true -> dead s' = false -> timers s' <> [])));
        [|apply stale_now|auto].
      intros other s1 _ [A1 B1]. apply hit_cases; auto.
      intros d _ _. cbn [fst].
      assert (SV1 : let s' := fst (startVanish (vanishing s) now s1) in
                (vanishing s' = false -> timers s' = [] /\ dead s' = false) /\
                (vanishing s' = true -> dead s' = false -> timers s' <> [])).
      { destruct (vanishing s); [simpl; auto|]. rewrite startVanish_enter.
        destruct (rigid s1); simpl; (split; [discriminate|]);
          intros _ _ E; apply app_eq_nil in E; destruct E; discriminate. }
      exact SV1.
    + apply SV.
    + intros d rest Ts _. simpl. split; [|discriminate].
      intro V. destruct (A V) as [E _]. congruence.
    + intros playerRef dt.
      pose proof (useFrame_frame playerRef dt now s) as (_ & D & V & _ & T).
      rewrite D, V, T. auto.
    + intros g r0 _. simpl. auto.
  - simpl. split; [auto|discriminate].
Qed.





Lemma startVanish_deadlines (c : bool) (a now : R) (s : Ghost) :
  (a <= now)%R ->
  Forall (fun d => (a + VANISH_DURATION <= d)%R) (timers s) ->
  Forall (fun d => (a + VANISH_DURATION <= d)%R)
         (timers (fst (startVanish c now s))).
Proof.
  intros L F. rewrite (proj1 (startVanish_timeouts c now s)).
  apply Forall_app. split; [exact F|].
  destruct c; constructor; [lra|constructor].
Qed.

Lemma step_in_window (a now : R) (ev : Event) (s : Ghost) :
  (a <= now < a + VANISH_DURATION)%R ->
  dead s = false ->
  Forall (fun d => (a + VANISH_DURATION <= d)%R) (timers s) ->
  dead (fst (step props now ev s)) = false /\
  Forall (fun d => (a + VANISH_DURATION <= d)%R)
         (timers (fst (step props now ev s))) /\
  count isOnDead (snd (step props now ev s)) = 0.
Proof.
  intros [La Lb] D F.
  apply (step_cases
           (fun res => dead (fst res) = false /\
                       Forall (fun d => (a + VANISH_DURATION <= d)%R)
                              (timers (fst res)) /\
                       count isOnDead (snd res) = 0)).
  - auto.
  - intro others.
    refine (drain_trace_ind (vanishing s) now
              (fun s' tr => dead s' = false /\
                            Forall (fun d => (a + VANISH_DURATION <= d)%R)
                                   (timers s') /\
                            count isOnDead tr = 0) _ others s [] _ _);
      [|apply stale_now|auto].
    intros other s1 tr1 _ (D1 & F1 & C1). rewrite count_app, C1.
    apply hit_cases; auto.
    intros d _ _. cbn [fst snd].
    pose proof (startVanish_frame (vanishing s) now s1) as (D' & _).
    pose proof (startVanish_deadlines (vanishing s) a now s1 La F1) as F'.
    pose proof (startVanish_no_onDead (vanishing s) now s1) as K.
    simpl. rewrite D'. unfold count in *. simpl. auto.
  - pose proof (startVanish_frame (vanishing s) now s) as (D' & _).
    rewrite D'. split; [exact D|]. split.
    + apply startVanish_deadlines; assumption.
    + apply startVanish_no_onDead.
  - intros d rest Ts Ld. rewrite Ts in F. inversion F; subst. lra.
  - intros playerRef dt.
    pose proof (useFrame_frame playerRef dt now s)
      as (_ & D' & _ & _ & T).
    rewrite D', T. split; [exact D|]. split; [exact F|].
    apply useFrame_count_none. intros [] E; simpl in *; congruence.
  - intros g r _. auto.
Qed.

(** X5: while the clock readings of the events stay within a window
    shorter than 2200 ms that starts at [a], a ghost mounted in that window
    never becomes dead and [onDead] is not called, whatever hits, rain
    signals, timer wake-ups and frames arrive. *)
Theorem no_removal_before_deadline
  (r : option Body) (a : R) (evs : list (R * Event)) :
  Forall (fun te => (a <= fst te < a + VANISH_DURATION)%R) evs ->
  let res := run props evs (mount props r) in
  dead (fst res) = false /\ count isOnDead (snd res) = 0.
Proof.
  intro W.
  assert (G : forall s,
             dead s = false ->
             Forall (fun d => (a + VANISH_DURATION <= d)%R) (timers s) ->
             dead (fst (run props evs s)) = false /\
             count isOnDead (snd (run props evs s)) = 0).
  { induction W as [|[now ev] evs Hw W IH]; intros s D F.
    - auto.
    - rewrite run_cons. cbn [fst snd]. rewrite count_app.
      destruct (step_in_window a now ev s Hw D F) as (D1 & F1 & C1).
      destruct (IH _ D1 F1) as [D2 C2]. rewrite C1, C2. auto. }
  apply G; [reflexivity|constructor].
Qed.

(** X6: [addKill] is never called for a ghost that is left alive: after
    any sequence of events, if [vanishing] is still false then no kill has
    been notified. *)
Theorem no_kill_while_alive (r : option Body) (evs : list (R * Event)) :
  let res := run props evs (mount props r) in
  vanishing (fst res) = false -> count isAddKill (snd res) = 0.
Proof.
  intro res. subst res.
  refine (run_trace_ind
            (fun s tr => vanishing s = false -> count isAddKill tr = 0)
            _ evs (mount props r) [] _); [|reflexivity].
  intros now ev s tr Q.
  assert (Same : forall s' e, vanishing s' = vanishing s ->
                 count isAddKill e = 0 ->
                 vanishing s' = false -> count isAddKill (tr ++ e) = 0).
  { intros s' e V E V'. rewrite count_app, E, Q; [reflexivity|congruence]. }
  apply (step_cases
           (fun res => vanishing (fst res) = false ->
                       count isAddKill (tr ++ snd res) = 0)).
  - apply (Same s []); reflexivity.
  - intro others.
    apply (drain_trace_ind (vanishing s) now
             (fun s' tr' => vanishing s' = false -> count isAddKill tr' = 0));
      [|apply stale_now|exact Q].
    intros other s1 tr1 St Q1. apply hit_cases.
    + simpl. rewrite app_nil_r. exact Q1.
    + intros d _ _. simpl. rewrite app_nil_r. exact Q1.
    + intros d _ _. cbn [fst snd]. simpl.
      pose proof (startVanish_frame (vanishing s) now s1)
        as (_ & _ & _ & _ & _ & V).
      rewrite (V St). discriminate.
  - pose proof (startVanish_frame (vanishing s) now s)
      as (_ & _ & _ & _ & _ & V).
    rewrite (V (stale_now s)). discriminate.
  - intros d rest _ _. apply (Same _ _ eq_refl).
    simpl. destruct (onDead props); reflexivity.
  - intros playerRef dt.
    pose proof (useFrame_frame playerRef dt now s) as (_ & _ & V & _).
    apply (Same _ _ V). apply useFrame_count_none.
    intros [] E; simpl in *; congruence.
  - intros g r0 _. apply (Same _ _ eq_refl). reflexivity.
Qed.

(** ** The body *)

Lemma play_keeps_body (name : string) (s : Ghost) :
  rigid (fst (play props name s)) = rigid s /\
  vanishing (fst (play props name s)) = vanishing s /\
  vanishPosRef (fst (play props name s)) = vanishPosRef s /\
  lastAttack (fst (play props name s)) = lastAttack s.
Proof.
  pose proof (play_frame name s) as (_ & _ & V & P & L & Rg & _).
  auto.
Qed.

Lemma startVanish_disables (c : bool) (now : R) (s : Ghost) (b : Body) :
  stale c s ->
  (vanishing s = true -> forall b', rigid s = Some b' -> enabled b' = false) ->
  rigid (fst (startVanish c now s)) = Some b -> enabled b = false.
Proof.
  intros St I. destruct c.
  - simpl. intro H. exact (I (St eq_refl) b H).
  - rewrite startVanish_enter. destruct (rigid s) eqn:Rg; simpl; intro H.
    + injection H as <-. reflexivity.
    + rewrite Rg in H. discriminate.
Qed.

Lemma step_keeps_disabled (now : R) (ev : Event) (s : Ghost) :
  (vanishing s = true -> forall b, rigid s = Some b -> enabled b = false) ->
  vanishing (fst (step props now ev s)) = true ->
  forall b, rigid (fst (step props now ev s)) = Some b -> enabled b = false.
Proof.
  intro I.
  apply (step_cases
           (fun res => vanishing (fst res) = true ->
                       forall b, rigid (fst res) = Some b -> enabled b = false)).
  - exact I.
  - intro others.
    apply (drain_state_ind (vanishing s) now
             (fun s' => vanishing s' = true ->
                        forall b, rigid s' = Some b -> enabled b = false));
      [|apply stale_now|exact I].
    intros other s1 St I1. apply hit_cases; auto.
    intros d _ _ _ b. cbn [fst]. simpl.
    apply (startVanish_disables (vanishing s) now s1 b St I1).
  - intros _ b. apply (startVanish_disables _ now s b (stale_now s) I).
  - intros d rest _ _. exact I.
  - intros playerRef dt.
    apply (useFrame_cases
             (fun res => vanishing (fst res) = true ->
                         forall b, rigid (fst res) = Some b ->
                                   enabled b = false)).
    + exact I.
    + intros p r v _ Rg _ s1.
      destruct (play_keeps_body WALK s1) as (R1 & V1 & _).
      cbn [fst]. rewrite R1, V1. simpl. intros V b H.
      injection H as <-. simpl. exact (I V r Rg).
    + intros p r v _ Rg _ _.
      destruct (play_keeps_body ATTACK s) as (_ & V1 & _).
      simpl. rewrite V1. intros V b H. injection H as <-. simpl.
      exact (I V r Rg).
    + intros p r _ Rg _.
      destruct (play_keeps_body ATTACK s) as (R1 & V1 & _).
      cbn [fst]. rewrite R1, V1. exact I.
  - intros g r Rg. simpl. intros V b H. injection H as <-. simpl.
    exact (I V r Rg).
Qed.

(** X7: once a ghost is vanishing its body stays disabled: after any
    sequence of events, frames and physics steps included, a vanishing
    ghost that has a body has it disabled. *)
Theorem vanishing_body_disabled
  (r : option Body) (evs : list (R * Event)) (b : Body) :
  let s := fst (run props evs (mount props r)) in
  vanishing s = true -> rigid s = Some b -> enabled b = false.
Proof.
  intros s V H. subst s. revert V b H.
  apply (run_state_ind
           (fun s => vanishing s = true ->
                     forall b, rigid s = Some b -> enabled b = false)).
  - intros now ev s. apply step_keeps_disabled.
  - simpl. discriminate.
Qed.

(** X8: a ghost whose body ref is not set never touches a body: over any
    sequence of events the ref stays unset, no position is handed over,
    [setEnabled] is not called, and [vanishPosRef] keeps the spawn
    position. *)
Theorem bodiless_ghost (evs : list (R * Event)) :
  let res := run props evs (mount props None) in
  rigid (fst res) = None /\
  vanishPosRef (fst res) = spawnPos props /\
  count isMotion (snd res) = 0 /\
  count isSetEnabled (snd res) = 0.
Proof.
  intro res. subst res.
  refine (run_trace_ind
            (fun s tr => rigid s = None /\ vanishPosRef s = spawnPos props /\
                         count isMotion tr = 0 /\ count isSetEnabled tr = 0)
            _ evs (mount props None) [] _); [|simpl; auto].
  intros now ev s tr H.
  assert (SV : forall c s1 tr1,
             rigid s1 = None /\ vanishPosRef s1 = spawnPos props /\
             count isMotion tr1 = 0 /\ count isSetEnabled tr1 = 0 ->
             let res := startVanish c now s1 in
             rigid (fst res) = None /\
             vanishPosRef (fst res) = spawnPos props /\
             count isMotion (tr1 ++ snd res) = 0 /\
             count isSetEnabled (tr1 ++ snd res) = 0).
  { intros c s1 tr1 (Rg1 & P1 & M1 & E1). cbv zeta.
    repeat rewrite count_app.
    rewrite M1, E1. destruct c; [simpl; auto|].
    rewrite startVanish_enter, Rg1. simpl. auto. }
  apply (step_cases
           (fun res => rigid (fst res) = None /\
                       vanishPosRef (fst res) = spawnPos props /\
                       count isMotion (tr ++ snd res) = 0 /\
                       count isSetEnabled (tr ++ snd res) = 0)).
  - simpl. rewrite app_nil_r. exact H.
  - intro others.
    apply (drain_trace_ind (vanishing s) now
             (fun s' tr' => rigid s' = None /\
                            vanishPosRef s' = spawnPos props /\
                            count isMotion tr' = 0 /\
                            count isSetEnabled tr' = 0));
      [|apply stale_now|exact H].
    intros other s1 tr1 _ H1. apply hit_cases.
    + simpl. rewrite app_nil_r. exact H1.
    + intros d _ _. simpl. rewrite app_nil_r. exact H1.
    + intros d _ _. cbn [fst snd].
      destruct (SV (vanishing s) s1 tr1 H1) as (A & B & C & D).
      repeat rewrite count_app in *. simpl. auto.
  - apply SV, H.
  - intros d rest _ _. destruct H as (Rg & P & M & E).
    repeat rewrite count_app. rewrite M, E. simpl.
    destruct (onDead props); auto.
  - intros playerRef dt. destruct H as (Rg & P & M & E).
    rewrite useFrame_noop by auto. simpl. rewrite app_nil_r. auto.
  - intros g r H0. destruct H as (Rg & _). congruence.
Qed.

(** ** Frames *)

Lemma step_lastAttack (now : R) (ev : Event) (s : Ghost) :
  (lastAttack s <= lastAttack (fst (step props now ev s)))%R.
Proof.
  apply (step_cases (fun res => (lastAttack s <= lastAttack (fst res))%R)).
  - simpl. lra.
  - intro others.
    apply (drain_state_ind (vanishing s) now
             (fun s' => (lastAttack s <= lastAttack s')%R));
      [|apply stale_now|lra].
    intros other s1 _ L. apply hit_cases; auto.
    intros d _ _. cbn [fst]. simpl.
    pose proof (startVanish_frame (vanishing s) now s1)
      as (_ & _ & _ & L1 & _). lra.
  - pose proof (startVanish_frame (vanishing s) now s)
      as (_ & _ & _ & L & _). lra.
  - intros. simpl. lra.
  - intros playerRef dt.
    apply (useFrame_cases
             (fun res => (lastAttack s <= lastAttack (fst res))%R)).
    + simpl. lra.
    + intros p r v _ _ _ s1.
      destruct (play_keeps_body WALK s1) as (_ & _ & _ & L).
      cbn [fst]. rewrite L. simpl. lra.
    + intros p r v _ _ _ Hot. simpl. unfold ATTACK_COOLDOWN in Hot. lra.
    + intros p r _ _ _.
      destruct (play_keeps_body ATTACK s) as (_ & _ & _ & L).
      cbn [fst]. rewrite L. lra.
  - intros. simpl. lra.
Qed.

(** X9: [lastAttack] never moves backwards, whatever clock readings the
    events carry: over any sequence of events it only grows, and a frame
    changes it only by more than 1000 ms at a time. *)
Theorem lastAttack_monotone (evs : list (R * Event)) (s : Ghost) :
  (lastAttack s <= lastAttack (fst (run props evs s)))%R /\
  forall playerRef dt now,
    let s' := fst (useFrame props playerRef dt now s) in
    lastAttack s' = lastAttack s \/
    (lastAttack s' > lastAttack s + ATTACK_COOLDOWN)%R.
Proof.
  split.
  - revert s. induction evs as [|[now ev] evs IH]; intro s.
    + simpl. lra.
    + rewrite run_cons. cbn [fst].
      pose proof (step_lastAttack now ev s). pose proof (IH (fst (step props now ev s))).
      lra.
  - intros playerRef dt now.
    apply (useFrame_cases
             (fun res => lastAttack (fst res) = lastAttack s \/
                         (lastAttack (fst res)
                          > lastAttack s + ATTACK_COOLDOWN)%R)).
    + left. reflexivity.
    + intros p r v _ _ _ s1. left.
      destruct (play_keeps_body WALK s1) as (_ & _ & _ & L).
      cbn [fst]. rewrite L. reflexivity.
    + intros p r v _ _ _ Hot. right. simpl. lra.
    + intros p r _ _ _. left.
      destruct (play_keeps_body ATTACK s) as (_ & _ & _ & L).
      exact L.
Qed.

(** Clips started by a trace. *)
Lemma plays_app (a b : list Effect) : plays (a ++ b) = plays a ++ plays b.
Proof.
  induction a as [|e a IH]; simpl; [reflexivity|].
  destruct e; simpl; rewrite IH; reflexivity.
Qed.

Lemma plays_stops (l : list string) : plays (map ActionStop l) = [].
Proof. induction l; simpl; auto. Qed.

Lemma noRestart_app (c : string) (l1 l2 : list string) :
  noRestart c (l1 ++ l2)
  = noRestart c l1 && noRestart (lastClip c l1) l2.
Proof.
  revert c. induction l1 as [|n l1 IH]; intro c; simpl.
  - reflexivity.
  - rewrite IH, andb_assoc. reflexivity.
Qed.

Lemma lastClip_app (c : string) (l1 l2 : list string) :
  lastClip c (l1 ++ l2) = lastClip (lastClip c l1) l2.
Proof. revert c. induction l1; intro c; simpl; auto. Qed.

Lemma play_clips (name : string) (s : Ghost) :
  noRestart (curr s) (plays (snd (play props name s))) = true /\
  lastClip (curr s) (plays (snd (play props name s)))
  = curr (fst (play props name s)).
Proof.
  apply (play_cases
           (fun res => noRestart (curr s) (plays (snd res)) = true /\
                       lastClip (curr s) (plays (snd res)) = curr (fst res))).
  - auto.
  - intros N _. cbn [fst snd]. rewrite plays_app, plays_stops. simpl.
    apply String.eqb_neq in N. rewrite N. auto.
Qed.

Lemma startVanish_clips (c : bool) (now : R) (s : Ghost) :
  plays (snd (startVanish c now s)) = [] /\
  curr (fst (startVanish c now s)) = curr s.
Proof.
  pose proof (startVanish_frame c now s) as (_ & _ & C & _).
  split; [|exact C]. destruct c; [reflexivity|].
  rewrite startVanish_enter. destruct (rigid s); reflexivity.
Qed.

Lemma step_clips (now : R) (ev : Event) (s : Ghost) :
  noRestart (curr s) (plays (snd (step props now ev s))) = true /\
  lastClip (curr s) (plays (snd (step props now ev s)))
  = curr (fst (step props now ev s)).
Proof.
  destruct (startVanish_clips (vanishing s) now s) as [SP SC].
  apply (step_cases
           (fun res => noRestart (curr s) (plays (snd res)) = true /\
                       lastClip (curr s) (plays (snd res)) = curr (fst res))).
  - auto.
  - intro others.
    assert (Q : plays (snd (drain (vanishing s) now others s)) = [] /\
                curr (fst (drain (vanishing s) now others s)) = curr s).
    { refine (drain_trace_ind (vanishing s) now
                (fun s' tr => plays tr = [] /\ curr s' = curr s)
                _ others s [] _ _); [|apply stale_now|auto].
      intros other s1 tr1 _ [P1 C1]. rewrite plays_app, P1.
      apply hit_cases; auto.
      intros d _ _. cbn [fst snd]. simpl.
      destruct (startVanish_clips (vanishing s) now s1) as [P2 C2].
      rewrite P2, C2. auto. }
    destruct Q as [P C]. rewrite P, C. auto.
  - rewrite SP, SC. auto.
  - intros. simpl. destruct (onDead props); auto.
  - intros playerRef dt.
    assert (LA : forall (b : bool) (px py pz : R),
               plays (if b then [] else [LookAt px py pz]) = []).
    { intros []; reflexivity. }
    apply (useFrame_cases
             (fun res => noRestart (curr s) (plays (snd res)) = true /\
                         lastClip (curr s) (plays (snd res)) = curr (fst res))).
    + auto.
    + intros p r v _ _ _ s1. cbn [fst snd]. rewrite plays_app, LA. simpl.
      exact (play_clips WALK s1).
    + intros p r v _ _ _ _. cbn [fst snd].
      rewrite plays_app, LA, plays_app. simpl. rewrite app_nil_r.
      exact (play_clips ATTACK s).
    + intros p r _ _ _. cbn [fst snd]. rewrite plays_app, LA. simpl.
      exact (play_clips ATTACK s).
  - auto.
Qed.

(** X10: over any sequence of events no clip is started while it is
    already the current one, and [curr] is the clip started last (or the
    initial one when none was started): the de-duplication of [play] holds
    across frames, not only for two successive requests. *)
Theorem no_clip_restart (evs : list (R * Event)) (s : Ghost) :
  let res := run props evs s in
  noRestart (curr s) (plays (snd res)) = true /\
  lastClip (curr s) (plays (snd res)) = curr (fst res).
Proof.
  simpl. revert s. induction evs as [|[now ev] evs IH]; intro s.
  - simpl. auto.
  - rewrite run_cons. cbn [fst snd].
    rewrite plays_app, noRestart_app, lastClip_app.
    destruct (step_clips now ev s) as [N L]. rewrite N, L.
    exact (IH (fst (step props now ev s))).
Qed.

(** X11: a frame only talks to the animation actions, the model group and
    the body's kinematic target: it never calls [addKill], [onDead],
    [setTimeout] or [setEnabled], and it leaves the hit points, both
    lifecycle flags, [vanishPosRef], the pending timeouts and the body's
    position and enabled flag as they are. *)
Theorem useFrame_footprint (playerRef : option V3) (dt now : R) (s : Ghost) :
  let res := useFrame props playerRef dt now s in
  forallb isFrameEffect (snd res) = true /\
  hp (fst res) = hp s /\ dead (fst res) = dead s /\
  vanishing (fst res) = vanishing s /\
  vanishPosRef (fst res) = vanishPosRef s /\
  timers (fst res) = timers s /\
  option_map translation (rigid (fst res)) = option_map translation (rigid s) /\
  option_map enabled (rigid (fst res)) = option_map enabled (rigid s).
Proof.
  intro res. subst res.
  split; [apply useFrame_effects|].
  pose proof (useFrame_frame playerRef dt now s) as (H & D & V & P & T).
  repeat (split; [assumption|]).
  apply (useFrame_cases
           (fun res => option_map translation (rigid (fst res))
                       = option_map translation (rigid s) /\
                       option_map enabled (rigid (fst res))
                       = option_map enabled (rigid s))).
  - auto.
  - intros p r v _ Rg _ s1.
    destruct (play_keeps_body WALK s1) as (R1 & _).
    cbn [fst]. rewrite R1, Rg. simpl. auto.
  - intros p r v _ Rg _ _. simpl. rewrite Rg. auto.
  - intros p r _ _ _.
    destruct (play_keeps_body ATTACK s) as (R1 & _).
    cbn [fst]. rewrite R1. auto.
Qed.

(** ** Distances *)

Lemma hypot_scale (a b c : R) :
  (0 <= c)%R -> hypot (a * c) (b * c) = (hypot a b * c)%R.
Proof.
  intro C. apply hypot_eq.
  - apply Rmult_le_pos; [apply hypot_nonneg|exact C].
  - pose proof (hypot_sqr a b) as S.
    replace (hypot a b * c * (hypot a b * c))%R
      with (hypot a b * hypot a b * (c * c))%R by ring.
    rewrite S. ring.
Qed.

Lemma motion_in_far (v next : V3) (b : bool) (px py pz : R) (tr : list Effect) :
  forallb isAnimation tr = true ->
  In (SetNextKinematicTranslation v)
     ((if b then [] else [LookAt px py pz])
        ++ SetNextKinematicTranslation next :: tr) ->
  v = next.
Proof.
  intros A H. apply in_app_or in H. destruct H as [H|[H|H]].
  - exfalso. exact (lookAt_not_motion _ _ _ _ _ H).
  - injection H as <-. reflexivity.
  - exfalso. exact (animation_not_motion _ _ A H).
Qed.

Lemma motion_in_near (v next : V3) (b : bool) (px py pz : R) (tr : list Effect) :
  forallb isAnimation tr = true ->
  In (SetNextKinematicTranslation v)
     (((if b then [] else [LookAt px py pz]) ++ tr)
        ++ [SetNextKinematicTranslation next]) ->
  v = next.
Proof.
  intros A H. apply in_app_or in H. destruct H as [H|[H|[]]].
  - apply in_app_or in H. destruct H as [H|H].
    + exfalso. exact (lookAt_not_motion _ _ _ _ _ H).
    + exfalso. exact (animation_not_motion _ _ A H).
  - injection H as <-. reflexivity.
Qed.

(** X12: a pursuit step that does not overshoot brings the ghost closer by
    exactly WALK_SPEED * dt: when the planar distance exceeds ATTACK_RANGE
    and WALK_SPEED * dt is at most that distance, the planar distance from
    the position handed to the body to the player is the old distance minus
    WALK_SPEED * dt. *)
Theorem pursuit_closes_distance
  (p : V3) (dt now : R) (s : Ghost) (r : Body) (v : V3) :
  dead s = false -> rigid s = Some r ->
  let g := translation r in
  let dist := hypot (x p - x g) (z p - z g) in
  (dist > ATTACK_RANGE)%R -> (0 <= dt)%R -> (WALK_SPEED * dt <= dist)%R ->
  In (SetNextKinematicTranslation v)
     (snd (useFrame props (Some p) dt now s)) ->
  hypot (x p - x v) (z p - z v) = (dist - WALK_SPEED * dt)%R.
Proof.
  intros D Rg g dist Far T K H.
  rewrite (useFrame_far p dt now s r D Rg Far) in H. cbn [snd] in H.
  apply motion_in_far in H; [|apply play_effects_animation].
  subst v. cbn [x z]. fold g. fold dist.
  assert (N : (dist > 0)%R) by (unfold ATTACK_RANGE in Far; lra).
  assert (C : (0 <= 1 - WALK_SPEED * dt / dist)%R).
  { replace (1 - WALK_SPEED * dt / dist)%R
      with ((dist - WALK_SPEED * dt) * / dist)%R by (field; lra).
    apply Rmult_le_pos; [lra|]. left. apply Rinv_0_lt_compat. exact N. }
  replace (x p - (x g + (x p - x g) / dist * WALK_SPEED * dt))%R
    with ((x p - x g) * (1 - WALK_SPEED * dt / dist))%R by (field; lra).
  replace (z p - (z g + (z p - z g) / dist * WALK_SPEED * dt))%R
    with ((z p - z g) * (1 - WALK_SPEED * dt / dist))%R by (field; lra).
  rewrite (hypot_scale _ _ _ C). fold dist. field. lra.
Qed.

(** X13: a retreat step takes the ghost 0.3 units further from the
    player: when the planar distance is positive and within ATTACK_RANGE and
    the cooldown has passed, the planar distance from the position handed
    to the body to the player is the old distance plus 0.3; so a ghost
    closer than 0.7 units is still within ATTACK_RANGE after retreating. *)
Theorem retreat_widens_distance
  (p : V3) (dt now : R) (s : Ghost) (r : Body) (v : V3) :
  dead s = false -> rigid s = Some r ->
  let g := translation r in
  let dist := hypot (x p - x g) (z p - z g) in
  (0 < dist <= ATTACK_RANGE)%R ->
  (now - lastAttack s > ATTACK_COOLDOWN)%R ->
  In (SetNextKinematicTranslation v)
     (snd (useFrame props (Some p) dt now s)) ->
  hypot (x p - x v) (z p - z v) = (dist + RETREAT_STEP)%R /\
  ((dist <= ATTACK_RANGE - RETREAT_STEP)%R ->
   (hypot (x p - x v) (z p - z v) <= ATTACK_RANGE)%R).
Proof.
  intros D Rg g dist [Pos Near] Hot H.
  rewrite (useFrame_near_hot p dt now s r D Rg Near Hot) in H.
  cbn [snd] in H.
  apply motion_in_near in H; [|apply play_effects_animation].
  destruct (retreat_away g p Pos) as [E _]. fold g in H.
  rewrite E in H. subst v. cbn [x z]. fold dist.
  assert (C : (0 <= 1 + RETREAT_STEP / dist)%R).
  { assert (0 < RETREAT_STEP / dist)%R; [|lra].
    apply Rdiv_lt_0_compat; [unfold RETREAT_STEP; lra|exact Pos]. }
  replace (x p - (x g + (x g - x p) / dist * RETREAT_STEP))%R
    with ((x p - x g) * (1 + RETREAT_STEP / dist))%R by (field; lra).
  replace (z p - (z g + (z g - z p) / dist * RETREAT_STEP))%R
    with ((z p - z g) * (1 + RETREAT_STEP / dist))%R by (field; lra).
  rewrite (hypot_scale _ _ _ C). fold dist.
  assert (V : (dist * (1 + RETREAT_STEP / dist) = dist + RETREAT_STEP)%R)
    by (field; lra).
  rewrite V. split; [reflexivity|]. intro L. lra.
Qed.

(** X14: whenever the health bar is rendered, over hits of positive
    damage, the red bar starts at the left end of the black bar, -1/2, ends
    at -1/2 + hp / MAX_HP and does not pass the black bar's right end,
    1/2. *)
Theorem healthBar_geometry
  (r : option Body) (evs : list (R * Event)) (f : Q) :
  positiveDamages evs = true ->
  healthBar (fst (run props evs (mount props r))) = Some f ->
  let s := fst (run props evs (mount props r)) in
  (barLeft s == - (1 # 2))%Q /\
  (barRight s == - (1 # 2) + f)%Q /\
  (barRight s <= 1 # 2)%Q.
Proof.
  intros P H s.
  assert (I : hpInRange s).
  { apply run_hpInRange; [exact P|]. intros _. simpl. unfold MAX_HP. lia. }
  unfold healthBar in H. fold s in H. unfold hpInRange in I.
  destruct (dead s); [discriminate|].
  destruct (vanishing s); [discriminate|].
  injection H as <-. specialize (I eq_refl).
  assert (F : (healthFraction s <= 1)%Q).
  { unfold healthFraction, MAX_HP in *.
    unfold Qle, Qdiv, Qmult, Qinv, inject_Z. simpl. lia. }
  assert (E : (barRight s == - (1 # 2) + healthFraction s)%Q).
  { unfold barRight, barPositionX. ring. }
  split; [unfold barLeft, barPositionX; ring|]. split; [exact E|].
  rewrite E. apply Qle_trans with (- (1 # 2) + 1)%Q.
  - apply Qplus_le_r. exact F.
  - discriminate.
Qed.


(** ** Death *)

Lemma hit_death (c : bool) (now : R) (other : option UserData) (s : Ghost) :
  (forall d, hitDamage other = Some d -> (0 < d)%Z) ->
  stale c s ->
  (vanishing s = true <-> (hp s <= 0)%Z) ->
  (vanishing (fst (onIntersectionEnter c now other s)) = true
   <-> (hp (fst (onIntersectionEnter c now other s)) <= 0)%Z).
Proof.
  intros P St I. apply hit_cases.
  - exact I.
  - intros d H L. specialize (P d H). simpl. split; intro V.
    + apply I in V. lia.
    + lia.
  - intros d _ L. simpl.
    pose proof (startVanish_frame c now s) as (_ & _ & _ & _ & _ & V).
    rewrite (V St). tauto.
Qed.

Lemma drain_death (c : bool) (now : R) (others : list (option UserData))
  (s : Ghost) :
  positiveDamage (IntersectionEnter others) = true ->
  stale c s ->
  (vanishing s = true <-> (hp s <= 0)%Z) ->
  (vanishing (fst (drain c now others s)) = true
   <-> (hp (fst (drain c now others s)) <= 0)%Z).
Proof.
  revert s. induction others as [|other others IH]; intros s P St I.
  - exact I.
  - simpl in P. apply andb_true_iff in P. destruct P as [P1 P2].
    rewrite drain_cons. cbn [fst]. apply IH.
    + exact P2.
    + apply onIntersectionEnter_stale, St.
    + apply hit_death; [|exact St|exact I].
      intros d. apply hitDamage_positive, P1.
Qed.

Lemma step_death (now : R) (ev : Event) (s : Ghost) :
  positiveDamage ev = true ->
  match ev with Raining raining => raining | _ => true end = true ->
  (vanishing s = true <-> (hp s <= 0)%Z) ->
  (vanishing (fst (step props now ev s)) = true
   <-> (hp (fst (step props now ev s)) <= 0)%Z).
Proof.
  intros P Rn I. destruct ev as [others|raining| |playerRef dt|g]; simpl.
  - apply drain_death; [exact P|apply stale_now|exact I].
  - rewrite Rn. exact I.
  - destruct (timers s) as [|d rest]; [exact I|].
    destruct (Rle_dec d now); exact I.
  - pose proof (useFrame_frame playerRef dt now s) as (H & _ & V & _).
    rewrite H, V. exact I.
  - destruct (rigid s); exact I.
Qed.

(** X15: while the rain lasts and hits carry a positive damage, a ghost is
    vanishing exactly when its hit points are at or below zero: the first
    hit that brings them there starts the vanishing, and nothing else
    does. *)
Theorem vanishing_iff_no_hit_points
  (r : option Body) (evs : list (R * Event)) :
  positiveDamages evs = true -> staysRaining evs = true ->
  let s := fst (run props evs (mount props r)) in
  vanishing s = true <-> (hp s <= 0)%Z.
Proof.
  intros P Rn. simpl.
  assert (G : forall s, (vanishing s = true <-> (hp s <= 0)%Z) ->
                        (vanishing (fst (run props evs s)) = true
                         <-> (hp (fst (run props evs s)) <= 0)%Z)).
  { induction evs as [|[now ev] evs IH]; intros s I.
    - exact I.
    - simpl in P, Rn. apply andb_true_iff in P. destruct P as [P1 P2].
      apply andb_true_iff in Rn. destruct Rn as [R1 R2].
      rewrite run_cons. cbn [fst]. apply (IH P2 R2).
      apply step_death; assumption. }
  apply G. simpl. unfold MAX_HP. split; [discriminate|lia].
Qed.

Lemma startVanish_enables (c : bool) (now : R) (s : Ghost) :
  count isEnable (snd (startVanish c now s)) = 0 /\
  count isSetEnabled (snd (startVanish c now s))
    <= count isSetTimeout (snd (startVanish c now s)).
Proof.
  destruct c; [simpl; auto|]. rewrite startVanish_enter.
  destruct (rigid s); (split; [reflexivity|unfold count; simpl; lia]).
Qed.

Lemma step_enables (now : R) (ev : Event) (s : Ghost) (tr : list Effect) :
  count isEnable tr = 0 /\
  count isSetEnabled tr <= count isSetTimeout tr ->
  count isEnable (tr ++ snd (step props now ev s)) = 0 /\
  count isSetEnabled (tr ++ snd (step props now ev s))
    <= count isSetTimeout (tr ++ snd (step props now ev s)).
Proof.
  intro H.
  assert (Add : forall tr1 e,
             count isEnable tr1 = 0 /\
             count isSetEnabled tr1 <= count isSetTimeout tr1 ->
             count isEnable e = 0 /\
             count isSetEnabled e <= count isSetTimeout e ->
             count isEnable (tr1 ++ e) = 0 /\
             count isSetEnabled (tr1 ++ e) <= count isSetTimeout (tr1 ++ e)).
  { intros tr1 e [A B] [C D]. repeat rewrite count_app. lia. }
  apply (step_cases
           (fun res => count isEnable (tr ++ snd res) = 0 /\
                       count isSetEnabled (tr ++ snd res)
                         <= count isSetTimeout (tr ++ snd res))).
  - simpl. rewrite app_nil_r. exact H.
  - intro others.
    apply (drain_trace_ind (vanishing s) now
             (fun _ tr' => count isEnable tr' = 0 /\
                           count isSetEnabled tr' <= count isSetTimeout tr'));
      [|apply stale_now|exact H].
    intros other s1 tr1 _ H1. apply hit_cases.
    + simpl. rewrite app_nil_r. exact H1.
    + intros d _ _. simpl. rewrite app_nil_r. exact H1.
    + intros d _ _. cbn [snd]. apply Add; [exact H1|].
      exact (startVanish_enables (vanishing s) now s1).
  - apply Add; [exact H|apply startVanish_enables].
  - intros d rest _ _. apply Add; [exact H|].
    simpl. destruct (onDead props); simpl; auto.
  - intros playerRef dt. apply Add; [exact H|]. split.
    + apply useFrame_count_none. intros [] E; simpl in *; congruence.
    + rewrite useFrame_count_none; [apply Nat.le_0_l|].
      intros [] E; simpl in *; congruence.
  - intros g r _. simpl. rewrite app_nil_r. exact H.
Qed.

(** X16: over any sequence of events the component never enables the
    body, and it calls [setEnabled] no more often than it schedules a
    timeout: each call is the [setEnabled(false)] of a [startVanish] that
    passed its guard. *)
Theorem body_never_enabled (r : option Body) (evs : list (R * Event)) :
  let tr := snd (run props evs (mount props r)) in
  count isEnable tr = 0 /\ count isSetEnabled tr <= count isSetTimeout tr.
Proof.
  simpl.
  refine (run_trace_ind
            (fun _ tr => count isEnable tr = 0 /\
                         count isSetEnabled tr <= count isSetTimeout tr)
            _ evs (mount props r) [] _); [|simpl; auto].
  intros now ev s tr H. apply step_enables, H.
Qed.

End Properties.

(** * Scenarios *)

(** C1: two "magic" bodies of damage 10 enter the sensor of a fresh ghost
    in the same physics step.  The first hit brings the hit points to 0,
    the second to -10; both reach the handler of the render in which
    [vanishing] was false, so [addKill] is called twice and [startVanish]
    passes its guard twice: two [setEnabled(false)], two [setTimeout]. *)
Theorem second_lethal_hit_notifies_again :
  let res := run sampleProps (volley 0 [10; 10]%Z) sampleGhost in
  hp (fst res) = (-10)%Z /\
  count isAddKill (snd res) = 2 /\
  count isSetTimeout (snd res) = 2 /\
  count isSetEnabled (snd res) = 2.
Proof.
  repeat split; reflexivity.
Qed.

(** C4: the same two hits schedule the removal twice, and when the two
    timeouts come due [onDead] is called twice. *)
Theorem stale_guard_schedules_twice :
  let hit := run sampleProps (volley 0 [10; 10]%Z) sampleGhost in
  let due := run sampleProps [(2200%R, TimerFires); (2200%R, TimerFires)]
                 (fst hit) in
  snd hit = [AddKill; SetEnabled false; SetTimeout VANISH_DURATION;
             AddKill; SetEnabled false; SetTimeout VANISH_DURATION] /\
  timers (fst hit) = [(0 + VANISH_DURATION)%R; (0 + VANISH_DURATION)%R] /\
  snd due = [OnDead; OnDead] /\
  timers (fst due) = [].
Proof.
  intros hit due. split; [reflexivity|]. split; [reflexivity|].
  assert (L : (0 + VANISH_DURATION <= 2200)%R)
    by (unfold VANISH_DURATION; lra).
  subst due. unfold run, step. cbn [fst]. simpl.
  destruct (Rle_dec (0 + VANISH_DURATION) 2200) as [_|N]; [|contradiction].
  simpl.
  destruct (Rle_dec (0 + VANISH_DURATION) 2200) as [_|N]; [|contradiction].
  simpl. auto.
Qed.

(** C9, as stated, fails: one hit of 15 on a fresh ghost leaves -5 hit
    points, and [hp / MAX_HP] is below 0. *)
Lemma healthFraction_below_zero :
  let s := fst (run sampleProps (hits 0 [15]%Z) sampleGhost) in
  hp s = (-5)%Z /\ (healthFraction s < 0)%Q.
Proof.
  split; reflexivity.
Qed.

Lemma healthBar_in_range_witness :
  let evs := hits 0 [3; 4]%Z in
  positiveDamages evs = true /\
  healthBar (fst (run sampleProps evs sampleGhost)) = Some (3 # 10)%Q /\
  (0 < 3 # 10)%Q /\ (3 # 10 <= 1)%Q.
Proof.
  split; [reflexivity|]. split; [reflexivity|].
  apply (healthBar_in_range sampleProps (Some (spawnBody sampleProps))
           (hits 0 [3; 4]%Z) (3 # 10)%Q); reflexivity.
Defined.

(** Scenario 1 of the specification, and the timeout that follows. *)
Lemma startVanish_entry_witness :
  vanishing sampleGhost = false /\
  rigid sampleGhost = Some (spawnBody sampleProps) /\
  snd (startVanish (vanishing sampleGhost) 0 sampleGhost)
    = [SetEnabled false; SetTimeout VANISH_DURATION] /\
  vanishPosRef (fst (startVanish (vanishing sampleGhost) 0 sampleGhost)) = origin /\
  lifecycleState
    (fst (step sampleProps 2200 TimerFires (fst (startVanish (vanishing sampleGhost) 0 sampleGhost))))
    = Removed.
Proof.
  split; [reflexivity|]. split; [reflexivity|].
  destruct (startVanish_entry sampleProps 0%R sampleGhost
              (spawnBody sampleProps) eq_refl eq_refl)
    as (E & _ & P & _ & _ & _ & T & _).
  split; [exact E|]. split; [exact P|].
  destruct (T 2200%R eq_refl) as [_ F].
  apply F. unfold VANISH_DURATION. lra.
Defined.

(** A fresh ghost is asked twice for the walk clip. *)
Lemma play_idempotent_witness :
  curr sampleGhost <> WALK /\
  hasAction sampleProps WALK = true /\
  snd (play sampleProps WALK sampleGhost)
    = [ActionStop WALK; ActionStop ATTACK;
       ActionReset WALK; ActionFadeIn WALK FADE_IN; ActionPlay WALK] /\
  play sampleProps WALK (fst (play sampleProps WALK sampleGhost))
    = (fst (play sampleProps WALK sampleGhost), []).
Proof.
  assert (N : curr sampleGhost <> WALK) by (simpl; discriminate).
  destruct (play_idempotent sampleProps WALK sampleGhost)
    as (I & _ & _ & S).
  destruct (S N eq_refl) as (E & _ & _).
  split; [exact N|]. split; [reflexivity|]. split; [exact E|exact I].
Defined.

Lemma hypot_3_4 : hypot (3 - 0) (4 - 0) = 5%R.
Proof. apply hypot_eq; lra. Qed.

Lemma hypot_half : hypot (1 / 2 - 0) (0 - 0) = (1 / 2)%R.
Proof. apply hypot_eq; lra. Qed.

Lemma hypot_origin : hypot (0 - 0) (0 - 0) = 0%R.
Proof. apply hypot_eq; lra. Qed.

(** A frame of a fresh ghost at the origin with the player at (3, 0, 4),
    five units away, and dt = 0.5. *)
Lemma pursuit_sample_trace :
  snd (useFrame sampleProps (Some (mk 3 0 4)) (1 / 2) 100 sampleGhost)
  = [LookAt 3 0 4; SetNextKinematicTranslation (mk (6 / 5) 0 (8 / 5));
     ActionStop WALK; ActionStop ATTACK;
     ActionReset WALK; ActionFadeIn WALK FADE_IN; ActionPlay WALK].
Proof.
  assert (Far : (hypot (x (mk 3 0 4) - x origin) (z (mk 3 0 4) - z origin)
                 > ATTACK_RANGE)%R).
  { simpl. rewrite hypot_3_4. unfold ATTACK_RANGE. lra. }
  rewrite (useFrame_far sampleProps (mk 3 0 4) (1 / 2) 100 sampleGhost
             (spawnBody sampleProps) eq_refl eq_refl Far).
  simpl. rewrite hypot_3_4. unfold WALK_SPEED.
  replace (0 + (3 - 0) / 5 * 4 * (1 / 2))%R with (6 / 5)%R by lra.
  replace (0 + (4 - 0) / 5 * 4 * (1 / 2))%R with (8 / 5)%R by lra.
  reflexivity.
Qed.

(** Scenario 2 of the specification. *)
Lemma useFrame_pursuit_witness :
  let p := mk 3 0 4 in
  dead sampleGhost = false /\
  rigid sampleGhost = Some (spawnBody sampleProps) /\
  (hypot (x p - x origin) (z p - z origin) > ATTACK_RANGE)%R /\
  snd (useFrame sampleProps (Some p) (1 / 2) 100 sampleGhost)
  = [LookAt 3 0 4; SetNextKinematicTranslation (mk (6 / 5) 0 (8 / 5));
     ActionStop WALK; ActionStop ATTACK;
     ActionReset WALK; ActionFadeIn WALK FADE_IN; ActionPlay WALK] /\
  distanceTo origin (mk (6 / 5) 0 (8 / 5)) = 2%R.
Proof.
  intro p.
  assert (Far : (hypot (x p - x origin) (z p - z origin) > ATTACK_RANGE)%R).
  { simpl. rewrite hypot_3_4. unfold ATTACK_RANGE. lra. }
  destruct (useFrame_pursuit sampleProps p (1 / 2) 100 sampleGhost
              (spawnBody sampleProps) eq_refl eq_refl Far) as (E & _ & L).
  split; [reflexivity|]. split; [reflexivity|]. split; [exact Far|].
  rewrite E. simpl. rewrite hypot_3_4. unfold WALK_SPEED.
  split.
  - replace (0 + (3 - 0) / 5 * 4 * (1 / 2))%R with (6 / 5)%R by lra.
    replace (0 + (4 - 0) / 5 * 4 * (1 / 2))%R with (8 / 5)%R by lra.
    reflexivity.
  - assert (L' : distanceTo origin
                   (mk (0 + (3 - 0) / hypot (3 - 0) (4 - 0) * WALK_SPEED * (1 / 2))
                       0
                       (0 + (4 - 0) / hypot (3 - 0) (4 - 0) * WALK_SPEED * (1 / 2)))
                 = (WALK_SPEED * (1 / 2))%R) by (apply L; lra).
    rewrite hypot_3_4 in L'. unfold WALK_SPEED in L'.
    replace (0 + (3 - 0) / 5 * 4 * (1 / 2))%R with (6 / 5)%R in L' by lra.
    replace (0 + (4 - 0) / 5 * 4 * (1 / 2))%R with (8 / 5)%R in L' by lra.
    rewrite L'. lra.
Defined.

(** In that frame the position handed over keeps the height 0. *)
Lemma motion_keeps_height_witness :
  let v := mk (6 / 5) 0 (8 / 5) in
  let tr := snd (useFrame sampleProps (Some (mk 3 0 4)) (1 / 2) 100 sampleGhost) in
  rigid sampleGhost = Some (spawnBody sampleProps) /\
  In (SetNextKinematicTranslation v) tr /\
  y v = y (translation (spawnBody sampleProps)).
Proof.
  intros v tr.
  assert (I : In (SetNextKinematicTranslation v) tr).
  { subst tr. rewrite pursuit_sample_trace. right. left. reflexivity. }
  split; [reflexivity|]. split; [exact I|].
  exact (proj1 (motion_keeps_height sampleProps (Some (mk 3 0 4)) (1 / 2) 100
                  sampleGhost (spawnBody sampleProps) v eq_refl I)).
Defined.

(** C3: the rain stops on a fresh ghost, which starts vanishing and has
    its body disabled; in the next frame, with the player five units away,
    the frame callback is not a no-op: it still hands a position, 2 units
    towards the player, to the body. *)
Theorem useFrame_runs_while_vanishing :
  let s := fst (run sampleProps [(0%R, Raining false)] sampleGhost) in
  let res := useFrame sampleProps (Some (mk 3 0 4)) (1 / 2) 100 s in
  lifecycleState s = Vanishing /\
  rigid s = Some (setEnabled false (spawnBody sampleProps)) /\
  filter isMotion (snd res)
  = [SetNextKinematicTranslation (mk (6 / 5) 0 (8 / 5))] /\
  res <> (s, []).
Proof.
  intros s res. split; [reflexivity|]. split; [reflexivity|].
  assert (Far : (hypot (x (mk 3 0 4) - x origin) (z (mk 3 0 4) - z origin)
                 > ATTACK_RANGE)%R).
  { simpl. rewrite hypot_3_4. unfold ATTACK_RANGE. lra. }
  assert (E : snd res
              = [SetNextKinematicTranslation (mk (6 / 5) 0 (8 / 5));
                 ActionStop WALK; ActionStop ATTACK;
                 ActionReset WALK; ActionFadeIn WALK FADE_IN;
                 ActionPlay WALK]).
  { subst res.
    rewrite (useFrame_far sampleProps (mk 3 0 4) (1 / 2) 100 s
               (setEnabled false (spawnBody sampleProps)) eq_refl eq_refl Far).
    simpl. rewrite hypot_3_4. unfold WALK_SPEED.
    replace (0 + (3 - 0) / 5 * 4 * (1 / 2))%R with (6 / 5)%R by lra.
    replace (0 + (4 - 0) / 5 * 4 * (1 / 2))%R with (8 / 5)%R by lra.
    reflexivity. }
  split.
  - rewrite E. reflexivity.
  - intro H. rewrite H in E. discriminate E.
Qed.

Lemma distanceTo_self (g : V3) : distanceTo g g = 0%R.
Proof.
  unfold distanceTo, Vector3.length. simpl.
  replace (_ + _ + _)%R with (0 * 0)%R by ring.
  apply sqrt_square. lra.
Qed.

(** C7, as stated, fails when the player stands at the ghost's planar
    position: the frame is within range and the cooldown has passed, yet
    the position handed to the body is the current one, a step of length 0
    and not of 0.3 units. *)
Lemma retreat_step_zero_on_player :
  let first := useFrame sampleProps (Some origin) (1 / 60) 2000 sampleGhost in
  (hypot (x origin - x origin) (z origin - z origin) <= ATTACK_RANGE)%R /\
  (2000 - lastAttack sampleGhost > ATTACK_COOLDOWN)%R /\
  snd first
  = [LookAt 0 0 0; ActionStop WALK; ActionStop ATTACK;
     ActionReset ATTACK; ActionFadeIn ATTACK FADE_IN; ActionPlay ATTACK;
     SetNextKinematicTranslation origin] /\
  lastAttack (fst first) = 2000%R /\
  distanceTo origin origin <> RETREAT_STEP.
Proof.
  intro first.
  assert (Near : (hypot (x origin - x origin) (z origin - z origin)
                  <= ATTACK_RANGE)%R).
  { simpl. rewrite hypot_origin. unfold ATTACK_RANGE. lra. }
  assert (Hot : (2000 - lastAttack sampleGhost > ATTACK_COOLDOWN)%R).
  { simpl. unfold ATTACK_COOLDOWN. lra. }
  split; [exact Near|]. split; [exact Hot|].
  subst first.
  rewrite (useFrame_near_hot sampleProps origin (1 / 60) 2000 sampleGhost
             (spawnBody sampleProps) eq_refl eq_refl Near Hot).
  pose proof (retreat_nowhere (translation (spawnBody sampleProps)) origin)
    as Z.
  cbv zeta in Z. rewrite Z by (simpl; apply hypot_origin).
  split; [reflexivity|]. split; [reflexivity|].
  rewrite distanceTo_self. unfold RETREAT_STEP. lra.
Qed.

(** Scenario 3 of the specification: the player is half a unit away; a
    frame at 2000 ms retreats by 0.3 units, a frame 500 ms later does not. *)
Lemma useFrame_attack_witness :
  let p := mk (1 / 2) 0 0 in
  let first := useFrame sampleProps (Some p) (1 / 60) 2000 sampleGhost in
  dead sampleGhost = false /\
  rigid sampleGhost = Some (spawnBody sampleProps) /\
  (hypot (x p - x origin) (z p - z origin) <= ATTACK_RANGE)%R /\
  snd first
  = [LookAt (1 / 2) 0 0; ActionStop WALK; ActionStop ATTACK;
     ActionReset ATTACK; ActionFadeIn ATTACK FADE_IN; ActionPlay ATTACK;
     SetNextKinematicTranslation (mk (- (3 / 10)) 0 0)] /\
  lastAttack (fst first) = 2000%R /\
  distanceTo origin (mk (- (3 / 10)) 0 0) = RETREAT_STEP /\
  count isMotion
    (snd (useFrame sampleProps (Some p) (1 / 60) 2500 (fst first))) = 0.
Proof.
  intros p first.
  assert (Near : (hypot (x p - x origin) (z p - z origin) <= ATTACK_RANGE)%R).
  { simpl. rewrite hypot_half. unfold ATTACK_RANGE. lra. }
  assert (Hot : (2000 - lastAttack sampleGhost > ATTACK_COOLDOWN)%R).
  { simpl. unfold ATTACK_COOLDOWN. lra. }
  destruct (useFrame_attack sampleProps p (1 / 60) 2000 sampleGhost
              (spawnBody sampleProps) eq_refl eq_refl Near) as [Go _].
  destruct (Go Hot) as (E & A & _ & Q).
  assert (Pos : (0 < hypot (x p - x origin) (z p - z origin))%R).
  { simpl. rewrite hypot_half. lra. }
  destruct (A Pos) as [Rt Len].
  assert (V : mk (x origin + (x origin - x p)
                     / hypot (x p - x origin) (z p - z origin) * RETREAT_STEP)
                 (y origin)
                 (z origin + (z origin - z p)
                     / hypot (x p - x origin) (z p - z origin) * RETREAT_STEP)
              = mk (- (3 / 10)) 0 0).
  { simpl. rewrite hypot_half. unfold RETREAT_STEP. f_equal; field. }
  split; [reflexivity|]. split; [reflexivity|]. split; [exact Near|].
  assert (Last : count isMotion
            (snd (useFrame sampleProps (Some p) (1 / 60) 2500 (fst first)))
          = 0).
  { apply Q; [unfold ATTACK_COOLDOWN; lra|exact Near]. }
  clear Q. subst first.
  change (translation (spawnBody sampleProps)) with origin in Rt, Len, E.
  rewrite Rt in Len, E. rewrite V in Len, E.
  split; [rewrite E; reflexivity|]. split; [rewrite E; reflexivity|].
  split; [exact Len|exact Last].
Defined.

(** The rain stops at 0 ms; timer wake-ups at 1000 ms and 2199 ms come
    before the deadline. *)
Lemma no_removal_before_deadline_witness :
  let evs := [(0%R, Raining false); (1000%R, TimerFires);
              (2199%R, TimerFires)] in
  Forall (fun te => (0 <= fst te < 0 + VANISH_DURATION)%R) evs /\
  dead (fst (run sampleProps evs sampleGhost)) = false /\
  count isOnDead (snd (run sampleProps evs sampleGhost)) = 0.
Proof.
  intro evs.
  assert (W : Forall (fun te => (0 <= fst te < 0 + VANISH_DURATION)%R) evs).
  { unfold evs, VANISH_DURATION. repeat constructor; simpl; lra. }
  split; [exact W|].
  exact (no_removal_before_deadline sampleProps
           (Some (spawnBody sampleProps)) 0%R evs W).
Defined.

(** Hits of 3 and 4 leave the ghost alive, and no kill is notified. *)
Lemma no_kill_while_alive_witness :
  let res := run sampleProps (hits 0 [3; 4]%Z) sampleGhost in
  vanishing (fst res) = false /\ count isAddKill (snd res) = 0.
Proof.
  intro res. split; [reflexivity|].
  exact (no_kill_while_alive sampleProps (Some (spawnBody sampleProps))
           (hits 0 [3; 4]%Z) eq_refl).
Defined.

(** The rain stops, then a physics step reports the body at (1, 0, 1). *)
Lemma vanishing_body_disabled_witness :
  let evs := [(0%R, Raining false); (1%R, PhysicsStep (mk 1 0 1))] in
  let s := fst (run sampleProps evs sampleGhost) in
  let b := mkBody (mk 1 0 1) false None in
  vanishing s = true /\ rigid s = Some b /\ enabled b = false.
Proof.
  intros evs s b. split; [reflexivity|]. split; [reflexivity|].
  exact (vanishing_body_disabled sampleProps (Some (spawnBody sampleProps))
           evs b eq_refl eq_refl).
Defined.

(** The player five units away, dt = 0.5: three units are left. *)
Lemma pursuit_closes_distance_witness :
  let p := mk 3 0 4 in
  let v := mk (6 / 5) 0 (8 / 5) in
  dead sampleGhost = false /\
  rigid sampleGhost = Some (spawnBody sampleProps) /\
  (hypot (x p - x origin) (z p - z origin) > ATTACK_RANGE)%R /\
  (0 <= 1 / 2)%R /\
  (WALK_SPEED * (1 / 2) <= hypot (x p - x origin) (z p - z origin))%R /\
  In (SetNextKinematicTranslation v)
     (snd (useFrame sampleProps (Some p) (1 / 2) 100 sampleGhost)) /\
  hypot (x p - x v) (z p - z v) = 3%R.
Proof.
  intros p v.
  assert (H5 : hypot (x p - x origin) (z p - z origin) = 5%R).
  { simpl. apply hypot_3_4. }
  assert (Far : (hypot (x p - x origin) (z p - z origin) > ATTACK_RANGE)%R).
  { rewrite H5. unfold ATTACK_RANGE. lra. }
  assert (K : (WALK_SPEED * (1 / 2)
               <= hypot (x p - x origin) (z p - z origin))%R).
  { rewrite H5. unfold WALK_SPEED. lra. }
  assert (T : (0 <= 1 / 2)%R) by lra.
  assert (I : In (SetNextKinematicTranslation v)
                 (snd (useFrame sampleProps (Some p) (1 / 2) 100 sampleGhost))).
  { unfold p. rewrite pursuit_sample_trace. right. left. reflexivity. }
  split; [reflexivity|]. split; [reflexivity|]. split; [exact Far|].
  split; [exact T|]. split; [exact K|]. split; [exact I|].
  rewrite (pursuit_closes_distance sampleProps p (1 / 2) 100 sampleGhost
             (spawnBody sampleProps) v eq_refl eq_refl Far T K I).
  change (translation (spawnBody sampleProps)) with origin.
  rewrite H5. unfold WALK_SPEED. lra.
Defined.

(** A frame of a fresh ghost at the origin at 2000 ms with the player half
    a unit away. *)
Lemma retreat_sample_trace :
  snd (useFrame sampleProps (Some (mk (1 / 2) 0 0)) (1 / 60) 2000 sampleGhost)
  = [LookAt (1 / 2) 0 0; ActionStop WALK; ActionStop ATTACK;
     ActionReset ATTACK; ActionFadeIn ATTACK FADE_IN; ActionPlay ATTACK;
     SetNextKinematicTranslation (mk (- (3 / 10)) 0 0)].
Proof.
  assert (Near : (hypot (x (mk (1 / 2) 0 0) - x origin)
                        (z (mk (1 / 2) 0 0) - z origin) <= ATTACK_RANGE)%R).
  { simpl. rewrite hypot_half. unfold ATTACK_RANGE. lra. }
  assert (Hot : (2000 - lastAttack sampleGhost > ATTACK_COOLDOWN)%R).
  { simpl. unfold ATTACK_COOLDOWN. lra. }
  rewrite (useFrame_near_hot sampleProps (mk (1 / 2) 0 0) (1 / 60) 2000
             sampleGhost (spawnBody sampleProps) eq_refl eq_refl Near Hot).
  assert (Pos : (0 < hypot (x (mk (1 / 2) 0 0) - x origin)
                           (z (mk (1 / 2) 0 0) - z origin))%R).
  { simpl. rewrite hypot_half. lra. }
  destruct (retreat_away origin (mk (1 / 2) 0 0) Pos) as [E _].
  change (translation (spawnBody sampleProps)) with origin.
  rewrite E. simpl. rewrite hypot_half. unfold RETREAT_STEP.
  replace (0 + (0 - 1 / 2) / (1 / 2) * (3 / 10))%R with (- (3 / 10))%R
    by field.
  replace (0 + (0 - 0) / (1 / 2) * (3 / 10))%R with 0%R by field.
  reflexivity.
Qed.

(** The player half a unit away: after the retreat 0.8 units, still
    within range. *)
Lemma retreat_widens_distance_witness :
  let p := mk (1 / 2) 0 0 in
  let v := mk (- (3 / 10)) 0 0 in
  dead sampleGhost = false /\
  rigid sampleGhost = Some (spawnBody sampleProps) /\
  (0 < hypot (x p - x origin) (z p - z origin) <= ATTACK_RANGE)%R /\
  (2000 - lastAttack sampleGhost > ATTACK_COOLDOWN)%R /\
  In (SetNextKinematicTranslation v)
     (snd (useFrame sampleProps (Some p) (1 / 60) 2000 sampleGhost)) /\
  hypot (x p - x v) (z p - z v) = (8 / 10)%R /\
  (hypot (x p - x v) (z p - z v) <= ATTACK_RANGE)%R.
Proof.
  intros p v.
  assert (Hh : hypot (x p - x origin) (z p - z origin) = (1 / 2)%R).
  { simpl. apply hypot_half. }
  assert (Near : (0 < hypot (x p - x origin) (z p - z origin)
                  <= ATTACK_RANGE)%R).
  { rewrite Hh. unfold ATTACK_RANGE. lra. }
  assert (Hot : (2000 - lastAttack sampleGhost > ATTACK_COOLDOWN)%R).
  { simpl. unfold ATTACK_COOLDOWN. lra. }
  assert (I : In (SetNextKinematicTranslation v)
                 (snd (useFrame sampleProps (Some p) (1 / 60) 2000
                         sampleGhost))).
  { unfold p. rewrite retreat_sample_trace. do 6 right. left. reflexivity. }
  destruct (retreat_widens_distance sampleProps p (1 / 60) 2000 sampleGhost
              (spawnBody sampleProps) v eq_refl eq_refl Near Hot I)
    as [E L].
  change (translation (spawnBody sampleProps)) with origin in E, L.
  split; [reflexivity|]. split; [reflexivity|]. split; [exact Near|].
  split; [exact Hot|]. split; [exact I|]. split.
  - rewrite E, Hh. unfold RETREAT_STEP. lra.
  - apply L. rewrite Hh. unfold ATTACK_RANGE, RETREAT_STEP. lra.
Defined.

(** After hits of 3 and 4 the red bar spans [-1/2, -2/10]. *)
Lemma healthBar_geometry_witness :
  let evs := hits 0 [3; 4]%Z in
  let s := fst (run sampleProps evs sampleGhost) in
  positiveDamages evs = true /\
  healthBar s = Some (3 # 10)%Q /\
  (barLeft s == - (1 # 2))%Q /\
  (barRight s == - (1 # 2) + (3 # 10))%Q /\
  (barRight s <= 1 # 2)%Q.
Proof.
  intros evs s. split; [reflexivity|]. split; [reflexivity|].
  exact (healthBar_geometry sampleProps (Some (spawnBody sampleProps))
           evs (3 # 10)%Q eq_refl eq_refl).
Defined.

(** Hits of 3, 4 and 5 under lasting rain: the third one brings the hit
    points to -2 and the ghost is vanishing. *)
Lemma vanishing_iff_no_hit_points_witness :
  let evs := (0%R, Raining true) :: hits 1 [3; 4; 5]%Z in
  let s := fst (run sampleProps evs sampleGhost) in
  positiveDamages evs = true /\ staysRaining evs = true /\
  (hp s <= 0)%Z /\ vanishing s = true.
Proof.
  intros evs s.
  assert (H : (hp s <= 0)%Z) by (simpl; lia).
  split; [reflexivity|]. split; [reflexivity|]. split; [exact H|].
  exact (proj2 (vanishing_iff_no_hit_points sampleProps
                  (Some (spawnBody sampleProps)) evs eq_refl eq_refl) H).
Defined.

(** The rain has stopped: the ghost is vanishing and its removal is
    pending. *)
Lemma pending_timeouts_witness :
  let s := fst (run sampleProps [(0%R, Raining false)] sampleGhost) in
  vanishing s = true /\ dead s = false /\ timers s <> [].
Proof.
  intro s. split; [reflexivity|]. split; [reflexivity|].
  exact (proj2 (pending_timeouts sampleProps (Some (spawnBody sampleProps))
                  [(0%R, Raining false)]) eq_refl eq_refl).
Defined.

